(** * S3 write-ahead log (package [s3_log], file [s3_wal.go])

    A shallow embedding of the Go package: the S3 bucket is a finite map
    from object keys to object bodies, the [S3WAL] handle is a record
    holding the prefix and the cached [length], and each method is a
    function from the handle, the bucket and the outcome of the store
    calls it issues to its result, the new handle and the new bucket.
    [uint64] values are [N] with their wrap-around written out. *)

From Stdlib Require Import Ascii String NArith ZArith Lia.
From Stdlib Require Import Strings.Byte.
From stdpp Require Import base list gmap strings sorting.

Local Open Scope N_scope.

(** ** uint64 *)

Definition two64 : N := 18446744073709551616.
Definition maxUint64 : N := two64 - 1.

(** [a + b] on [uint64] operands: Go's unsigned addition wraps. *)
Definition add64 (a b : N) : N := (a + b) mod two64.

(** ** Bytes and [encoding/binary] big-endian *)

Definition byte_of_N (x : N) : byte :=
  match Byte.of_N x with Some b => b | None => x00 end.

(** [binary.Write(w, binary.BigEndian, v)] for a [uint64]: the [k] bytes of
    [v], most significant first ([PutUint64] stores [byte(v >> 56)] first
    and [byte(v)] last); written as a recursion on the byte count. *)
Fixpoint put_be (k : nat) (v : N) : list byte :=
  match k with
  | O => []
  | S k' => put_be k' (N.shiftr v 8) ++ [byte_of_N (N.land v 255)]
  end.

Definition put_uint64 (v : N) : list byte := put_be 8 v.

(** [binary.Read(bytes.NewReader(b[:8]), binary.BigEndian, &x)]:
    [BigEndian.Uint64], folding the bytes most significant first. *)
Definition be_uint64 (b : list byte) : N :=
  fold_left (fun acc x => acc * 256 + Byte.to_N x) b 0.

#[global] Instance byte_eq_decision : EqDecision byte := Byte.byte_eq_dec.

(** ** Key encoding *)

Definition digit_char (d : N) : ascii := ascii_of_N (48 + d).

(** The digit loop of [fmt]'s [fmtInteger] for base 10: the last digit is
    emitted first, [for u >= 10 { buf[i] = '0' + u%10; u /= 10 }], then the
    leading digit.  Twenty iterations cover every [uint64] (at most 20
    decimal digits). *)
Fixpoint fmt_digits (fuel : nat) (u : N) (acc : list ascii) : list ascii :=
  match fuel with
  | O => digit_char u :: acc
  | S f =>
      if 10 <=? u then fmt_digits f (u / 10) (digit_char (u mod 10) :: acc)
      else digit_char u :: acc
  end.

(** The zero flag with width [w] ([%0wd]): left-pad with ['0'] to [w]. *)
Definition zero_pad (w : nat) (s : list ascii) : list ascii :=
  repeat "0"%char (w - length s) ++ s.

(** [fmt.Sprintf("%020d", offset)] *)
Definition sprintf_020d (offset : N) : string :=
  string_of_list_ascii (zero_pad 20 (fmt_digits 20 offset [])).

(** [getObjectKey]: [w.prefix + "/" + fmt.Sprintf("%020d", offset)] *)
Definition getObjectKey (prefix : string) (offset : N) : string :=
  String.append prefix (String.append "/" (sprintf_020d offset)).

(** [strings.LastIndexByte(key, c)]: the index of the last [c], or -1. *)
Fixpoint last_index_from (l : list ascii) (c : ascii) (i best : Z) : Z :=
  match l with
  | [] => best
  | x :: l' => last_index_from l' c (i + 1) (if ascii_dec x c then i else best)
  end.

Definition LastIndexByte (s : string) (c : ascii) : Z :=
  last_index_from (list_ascii_of_string s) c 0 (-1).

(** The digit value of a character for base 10 ([None]: syntax error). *)
Definition digit_val (c : ascii) : option N :=
  let n := N_of_ascii c in
  if (48 <=? n) && (n <=? 57) then Some (n - 48) else None.

(** [cutoff] of [strconv.ParseUint] for base 10 and 64 bits:
    [maxUint64/10 + 1]. *)
Definition cutoff : N := maxUint64 / 10 + 1.

(** The digit loop of [strconv.ParseUint(s, 10, 64)]: a non-digit is a
    syntax error, [n >= cutoff] or [n*10 + d > maxVal] a range error
    (Go detects the latter through [n1 < n || n1 > maxVal]). *)
Fixpoint parse_digits (l : list ascii) (n : N) : option N :=
  match l with
  | [] => Some n
  | c :: l' =>
      match digit_val c with
      | None => None
      | Some d =>
          if cutoff <=? n then None
          else let n1 := n * 10 + d in
               if maxUint64 <? n1 then None else parse_digits l' n1
      end
  end.

(** [strconv.ParseUint(s, 10, 64)]: the empty string is a syntax error. *)
Definition ParseUint (s : list ascii) : option N :=
  match s with
  | [] => None
  | _ => parse_digits s 0
  end.

(** [getOffsetFromKey]: parse the text after the last ['/']; no slash or a
    trailing slash is an error. *)
Definition getOffsetFromKey (key : string) : option N :=
  let idx := LastIndexByte key "/"%char in
  let l := list_ascii_of_string key in
  if (idx <? 0)%Z || (idx =? Z.of_nat (length l) - 1)%Z then None
  else ParseUint (skipn (Z.to_nat (idx + 1)) l).

(** ** Records, handle, errors *)

(** [Record] *)
Record record := mkRecord { Offset : N; Data : list byte }.

(** [S3WAL] without the client and bucket name; [w_length] is [w.length],
    the last known offset ([0]: unknown or empty). *)
Record S3WAL := mkS3WAL { w_prefix : string; w_length : N }.

Definition set_length (w : S3WAL) (n : N) : S3WAL := mkS3WAL (w_prefix w) n.

(** [NewS3WAL]: [strings.Trim(prefix, "/")], length 0. *)
Fixpoint trim_left_slash (l : list ascii) : list ascii :=
  match l with
  | c :: l' => if ascii_dec c "/" then trim_left_slash l' else l
  | [] => []
  end.

Definition NewS3WAL (prefix : string) : S3WAL :=
  let l := list_ascii_of_string prefix in
  mkS3WAL (string_of_list_ascii (rev (trim_left_slash (rev (trim_left_slash l))))) 0.

(** Why a [GetObject] call failed: a missing key or a transport error. *)
Inductive get_error := NoSuchKey | GetTransport.

(** One constructor per [fmt.Errorf] site of the package. *)
Inductive wal_error :=
| ErrPrepareBody
| ErrPutObject (offset : N)
| ErrGetObject (key : string) (cause : get_error)
| ErrTooShort (key : string)
| ErrOffsetMismatch (key : string) (expected got : N)
| ErrChecksum (offset : N) (key : string)
| ErrListObjects
| ErrEmpty
| ErrParseLastKey (key : string)
| ErrDeleteObjects
| ErrDeleteKeys (keys : list string).

Inductive result (A : Type) := Ok (a : A) | Error (e : wal_error).
Arguments Ok {A} a.
Arguments Error {A} e.

(** The bucket: object key to object body. *)
Abbreviation bucket := (gmap string (list byte)).

(** The outcome of every store call an operation issues: whether
    [PutObject] / [GetObject] fail in transport, whether the [i]-th
    [ListObjectsV2] page request fails, whether the [j]-th [DeleteObjects]
    call fails, and which keys a [DeleteObjects] call reports as
    per-key errors. *)
Record Net := mkNet {
  put_fails : bool;
  get_fails : bool;
  list_fails : nat -> bool;
  delete_fails : nat -> bool;
  delete_rejects : string -> bool }.

Definition reliable : Net :=
  mkNet false false (fun _ => false) (fun _ => false) (fun _ => false).

(** ** Listing: [ListObjectsV2] with its paginator *)

(** The keys under [pfx] in S3's (UTF-8 binary, here byte-wise) order. *)
Definition list_keys (b : bucket) (pfx : string) : list string :=
  merge_sort String.le
    (filter (fun k => String.prefix pfx k = true) (elements (dom b))).

Definition page_size : nat := 1000.

Fixpoint chunk (fuel : nat) (l : list string) : list (list string) :=
  match fuel with
  | O => []
  | S f =>
      match l with
      | [] => []
      | _ => take page_size l :: chunk f (drop page_size l)
      end
  end.

(** The pages the paginator fetches: at least one (the first request is
    always made), each of at most 1000 keys. *)
Definition pages (l : list string) : list (list string) :=
  match chunk (length l) l with [] => [[]] | ps => ps end.

(** Whether every page request from the [i]-th on succeeds. *)
Definition pages_ok (net : Net) (i : nat) (ps : list (list string)) : bool :=
  forallb (fun n => negb (list_fails net n)) (seq i (length ps)).

Definition list_prefix (w : S3WAL) : string := String.append (w_prefix w) "/".

Section WAL.

Variable sha256 : list byte -> list byte.

(** [prepareBody]: [offset BE ‖ data ‖ sha256(offset BE ‖ data)]; the
    writes to [bytes.Buffer] cannot fail, the checksum length is checked. *)
Definition prepareBody (offset : N) (data : list byte) : option (list byte) :=
  let pre := put_uint64 offset ++ data in
  let checksum := sha256 pre in
  if Nat.eqb (length checksum) 32 then Some (pre ++ checksum) else None.

(** [validateChecksum] *)
Definition validateChecksum (full : list byte) : bool :=
  if Nat.ltb (length full) 32 then false
  else
    let dataPart := take (length full - 32) full in
    let stored := drop (length full - 32) full in
    bool_decide (sha256 dataPart = stored).

(** The body checks of [Read] after the download, for the key [key] of
    [offset]. *)
Definition decode_body (key : string) (offset : N) (data : list byte)
  : result record :=
  if Nat.ltb (length data) (8 + 32) then Error (ErrTooShort key)
  else
    let storedOffset := be_uint64 (take 8 data) in
    if negb (N.eqb storedOffset offset)
    then Error (ErrOffsetMismatch key offset storedOffset)
    else if negb (validateChecksum data) then Error (ErrChecksum offset key)
    else Ok (mkRecord storedOffset (take (length data - 8 - 32) (drop 8 data))).

(** [Read]: [GetObject] then [decode_body]; no state change. *)
Definition Read (w : S3WAL) (b : bucket) (net : Net) (offset : N)
  : result record :=
  let key := getObjectKey (w_prefix w) offset in
  if get_fails net then Error (ErrGetObject key GetTransport)
  else match b !! key with
       | None => Error (ErrGetObject key NoSuchKey)
       | Some data => decode_body key offset data
       end.

(** [Append] *)
Definition Append (w : S3WAL) (b : bucket) (net : Net) (data : list byte)
  : result N * S3WAL * bucket :=
  let next := add64 (w_length w) 1 in
  match prepareBody next data with
  | None => (Error ErrPrepareBody, w, b)
  | Some body =>
      if put_fails net then (Error (ErrPutObject next), w, b)
      else (Ok next, set_length w next, <[getObjectKey (w_prefix w) next := body]> b)
  end.

(** The page loop of [LastRecord]: the last key of each non-empty page. *)
Fixpoint last_key_pages (net : Net) (i : nat) (ps : list (list string))
    (lastKey : string) : option string :=
  match ps with
  | [] => Some lastKey
  | p :: ps' =>
      if list_fails net i then None
      else last_key_pages net (S i) ps'
             (match last p with Some k => k | None => lastKey end)
  end.

(** [LastRecord] *)
Definition LastRecord (w : S3WAL) (b : bucket) (net : Net)
  : result record * S3WAL * bucket :=
  match last_key_pages net 0 (pages (list_keys b (list_prefix w))) "" with
  | None => (Error ErrListObjects, w, b)
  | Some lastKey =>
      if String.eqb lastKey "" then (Error ErrEmpty, set_length w 0, b)
      else match getOffsetFromKey lastKey with
           | None => (Error (ErrParseLastKey lastKey), w, b)
           | Some offset =>
               let w' := set_length w offset in (Read w' b net offset, w', b)
           end
  end.

(** One step of the object loop of [Recover]: keys that do not decode are
    skipped ([continue]), otherwise the maximum is kept.  Every listed
    object has a key here, so the [obj.Key == nil] guard never fires. *)
Definition recover_obj (maxOffset : N) (key : string) : N :=
  match getOffsetFromKey key with
  | None => maxOffset
  | Some offset => if maxOffset <? offset then offset else maxOffset
  end.

Fixpoint recover_pages (net : Net) (i : nat) (ps : list (list string))
    (maxOffset : N) : option N :=
  match ps with
  | [] => Some maxOffset
  | p :: ps' =>
      if list_fails net i then None
      else recover_pages net (S i) ps' (fold_left recover_obj p maxOffset)
  end.

(** [Recover] *)
Definition Recover (w : S3WAL) (b : bucket) (net : Net)
  : result N * S3WAL * bucket :=
  match recover_pages net 0 (pages (list_keys b (list_prefix w))) 0 with
  | None => (Error ErrListObjects, w, b)
  | Some maxOffset => (Ok maxOffset, set_length w maxOffset, b)
  end.

(** [batchDelete], the [j]-th [DeleteObjects] call of a [Truncate]: the
    keys not reported as per-key errors are deleted; the per-key errors are
    collected into one error. *)
Definition batchDelete (net : Net) (j : nat) (b : bucket) (keys : list string)
  : option wal_error * bucket :=
  match keys with
  | [] => (None, b)
  | _ =>
      if delete_fails net j then (Some ErrDeleteObjects, b)
      else
        let errs := filter (fun k => delete_rejects net k = true) keys in
        let b' := foldr delete b (filter (fun k => delete_rejects net k = false) keys) in
        match errs with
        | [] => (None, b')
        | _ => (Some (ErrDeleteKeys errs), b')
        end
  end.

(** The object loop of [Truncate]: keys past [afterOffset] are queued;
    a full batch of 1000 is deleted at once.  A key that does not decode
    is skipped by [continue], before the batch check. *)
Fixpoint truncate_objs (net : Net) (afterOffset : N) (objs : list string)
    (b : bucket) (pending : list string) (j : nat)
  : option wal_error * bucket * list string * nat :=
  match objs with
  | [] => (None, b, pending, j)
  | k :: objs' =>
      match getOffsetFromKey k with
      | None => truncate_objs net afterOffset objs' b pending j
      | Some offset =>
          let pending1 := if afterOffset <? offset then pending ++ [k] else pending in
          if Nat.eqb (length pending1) 1000 then
            match batchDelete net j b pending1 with
            | (Some e, b1) => (Some e, b1, pending1, j)
            | (None, b1) => truncate_objs net afterOffset objs' b1 [] (S j)
            end
          else truncate_objs net afterOffset objs' b pending1 j
      end
  end.

Fixpoint truncate_pages (net : Net) (afterOffset : N) (i : nat)
    (ps : list (list string)) (b : bucket) (pending : list string) (j : nat)
  : option wal_error * bucket * list string * nat :=
  match ps with
  | [] => (None, b, pending, j)
  | p :: ps' =>
      if list_fails net i then (Some ErrListObjects, b, pending, j)
      else match truncate_objs net afterOffset p b pending j with
           | (Some e, b1, pend1, j1) => (Some e, b1, pend1, j1)
           | (None, b1, pend1, j1) =>
               truncate_pages net afterOffset (S i) ps' b1 pend1 j1
           end
  end.

(** [Truncate]: the listing and the deletions do not read [w.length]; on
    success the cached length becomes [afterOffset]. *)
Definition Truncate (w : S3WAL) (b : bucket) (net : Net) (afterOffset : N)
  : result unit * S3WAL * bucket :=
  let finish (b2 : bucket) :=
    (Ok tt, set_length w (if afterOffset =? 0 then 0 else afterOffset), b2) in
  match truncate_pages net afterOffset 0 (pages (list_keys b (list_prefix w))) b [] 0 with
  | (Some e, b1, _, _) => (Error e, w, b1)
  | (None, b1, pending, j) =>
      if Nat.ltb 0 (length pending) then
        match batchDelete net j b1 pending with
        | (Some e, b2) => (Error e, w, b2)
        | (None, b2) => finish b2
        end
      else finish b1
  end.

End WAL.

(** ** A run of the demo scenario (test_wal.sh), with a stand-in hash *)

Definition toy_hash (l : list byte) : list byte :=
  repeat (byte_of_N (N.of_nat (length l) mod 256)) 32.

Definition str_bytes (s : string) : list byte := list_byte_of_string s.

Fixpoint append_all (w : S3WAL) (b : bucket) (xs : list string)
  : list (result N) * S3WAL * bucket :=
  match xs with
  | [] => ([], w, b)
  | x :: xs' =>
      match Append toy_hash w b reliable (str_bytes x) with
      | (r, w1, b1) =>
          match append_all w1 b1 xs' with
          | (rs, w2, b2) => (r :: rs, w2, b2)
          end
      end
  end.

Definition demo_run :=
  let '(rs, w1, b1) := append_all (NewS3WAL "/wal-demo/") ∅
     ["Record #1"; "Record #2"; "Record #3"; "Record #4"; "Record #5"]%string in
  let r3 := Read toy_hash w1 b1 reliable 3 in
  let '(lr, w2, b2) := LastRecord toy_hash w1 b1 reliable in
  let '(tr, w3, b3) := Truncate w2 b2 reliable 3 in
  let '(rc, w4, b4) := Recover w3 b3 reliable in
  (rs, r3, lr, tr, rc, Read toy_hash w4 b4 reliable 4, Read toy_hash w4 b4 reliable 5,
   Read toy_hash w4 b4 reliable 2).

(** The [k] low decimal digits of [u], most significant first. *)
Fixpoint dec_fixed (k : nat) (u : N) : list ascii :=
  match k with
  | O => []
  | S k' => digit_char ((u / 10 ^ N.of_nat k') mod 10) :: dec_fixed k' u
  end.

(** The keys [Truncate] queues for deletion: those that decode to an
    offset past [afterOffset]. *)
Definition past (afterOffset : N) (k : string) : bool :=
  match getOffsetFromKey k with Some o => afterOffset <? o | None => false end.

Definition to_delete (afterOffset : N) (l : list string) : list string :=
  filter (fun k => past afterOffset k = true) l.

(** ** Single-writer runs

    One step is one call of the public API on the state (handle, bucket),
    under any fault pattern of the store.  [Append] is issued while the
    cached length is below [2^64-1], and [Truncate(k)] with [k] at most the
    cached length and only when it succeeds; [Read] changes nothing. *)
Inductive wal_step (sha256 : list byte -> list byte)
  : S3WAL * bucket -> S3WAL * bucket -> Prop :=
| step_append w b net data r w' b' :
    w_length w < maxUint64 ->
    Append sha256 w b net data = (r, w', b') ->
    wal_step sha256 (w, b) (w', b')
| step_read w b (net : Net) (offset : N) :
    wal_step sha256 (w, b) (w, b)
| step_lastrecord w b net r w' b' :
    LastRecord sha256 w b net = (r, w', b') ->
    wal_step sha256 (w, b) (w', b')
| step_recover w b net r w' b' :
    Recover w b net = (r, w', b') ->
    wal_step sha256 (w, b) (w', b')
| step_truncate w b net k w' b' :
    k <= w_length w ->
    Truncate w b net k = (Ok tt, w', b') ->
    wal_step sha256 (w, b) (w', b').

(** The stored keys are exactly those of offsets [1 .. cached length]. *)
Definition wal_inv (w : S3WAL) (b : bucket) : Prop :=
  w_length w < two64 /\
  forall key, is_Some (b !! key) <->
    exists i, 1 <= i <= w_length w /\ key = getObjectKey (w_prefix w) i.

(** ** The command-line tool ([cmd/s3wal/main.go])

    Each run builds a fresh handle with [NewS3WAL] and issues one call.
    [flag.Args()] is [args]; whether [config.LoadDefaultConfig] fails is
    [config_fails].  The output is the branch taken with the values it
    prints; [log.Fatal] / [log.Fatalf] end the run with [Fatal]. *)
Inductive cli_fatal :=
| FatalConfig
| FatalUsageAppend
| FatalUsageRead
| FatalUsageTruncate
| FatalInvalidOffset
| FatalAppend (e : wal_error)
| FatalRead (e : wal_error)
| FatalLast (e : wal_error)
| FatalTruncate (e : wal_error)
| FatalRecover (e : wal_error).

Inductive cli_out :=
| PrintUsage
| PrintAppended (offset : N) (data : list byte)
| PrintRecord (r : record)
| PrintLast (r : record)
| PrintTruncated (offset : N)
| PrintLastOffset (offset : N)
| PrintUnknown (cmd : string)
| Fatal (f : cli_fatal).

(** [main] after flag parsing. *)
Definition cli_main (sha256 : list byte -> list byte) (config_fails : bool)
    (prefix : string) (args : list string) (b : bucket) (net : Net)
  : cli_out * bucket :=
  match args with
  | [] => (PrintUsage, b)
  | cmd :: rest =>
      if config_fails then (Fatal FatalConfig, b) else
      let wal := NewS3WAL prefix in
      if String.eqb cmd "append" then
        match rest with
        | [] => (Fatal FatalUsageAppend, b)
        | arg :: _ =>
            let data := str_bytes arg in
            match Append sha256 wal b net data with
            | (Error e, _, b1) => (Fatal (FatalAppend e), b1)
            | (Ok offset, _, b1) => (PrintAppended offset data, b1)
            end
        end
      else if String.eqb cmd "read" then
        match rest with
        | [] => (Fatal FatalUsageRead, b)
        | arg :: _ =>
            match ParseUint (list_ascii_of_string arg) with
            | None => (Fatal FatalInvalidOffset, b)
            | Some offset =>
                match Read sha256 wal b net offset with
                | Error e => (Fatal (FatalRead e), b)
                | Ok r => (PrintRecord r, b)
                end
            end
        end
      else if String.eqb cmd "last" then
        match LastRecord sha256 wal b net with
        | (Error e, _, b1) => (Fatal (FatalLast e), b1)
        | (Ok r, _, b1) => (PrintLast r, b1)
        end
      else if String.eqb cmd "truncate" then
        match rest with
        | [] => (Fatal FatalUsageTruncate, b)
        | arg :: _ =>
            match ParseUint (list_ascii_of_string arg) with
            | None => (Fatal FatalInvalidOffset, b)
            | Some offset =>
                match Truncate wal b net offset with
                | (Error e, _, b1) => (Fatal (FatalTruncate e), b1)
                | (Ok _, _, b1) => (PrintTruncated offset, b1)
                end
            end
        end
      else if String.eqb cmd "recover" then
        match Recover wal b net with
        | (Error e, _, b1) => (Fatal (FatalRecover e), b1)
        | (Ok o, _, b1) => (PrintLastOffset o, b1)
        end
      else (PrintUnknown cmd, b)
  end.

(** * Lemmas *)

(** ** Tests on concrete inputs *)

Example getObjectKey_1 :
  getObjectKey "wal" 1 = "wal/00000000000000000001"%string.
Proof. reflexivity. Qed.

Example getObjectKey_max :
  getObjectKey "wal" maxUint64 = "wal/18446744073709551615"%string.
Proof. reflexivity. Qed.

Example getOffsetFromKey_ok :
  getOffsetFromKey "a/b/00000000000000000042" = Some 42.
Proof. reflexivity. Qed.

Example getOffsetFromKey_short : getOffsetFromKey "wal/7" = Some 7.
Proof. reflexivity. Qed.

Example getOffsetFromKey_bad :
  getOffsetFromKey "wal/zzz" = None /\ getOffsetFromKey "wal/" = None /\
  getOffsetFromKey "wal" = None /\
  getOffsetFromKey "wal/18446744073709551616" = None.
Proof. repeat split; reflexivity. Qed.

Example be_roundtrip_ex :
  be_uint64 (put_uint64 72623859790382856) = 72623859790382856.
Proof. reflexivity. Qed.

Example demo_run_result :
  demo_run =
  ([Ok 1; Ok 2; Ok 3; Ok 4; Ok 5],
   Ok (mkRecord 3 (str_bytes "Record #3")),
   Ok (mkRecord 5 (str_bytes "Record #5")),
   Ok tt, Ok 3,
   Error (ErrGetObject "wal-demo/00000000000000000004" NoSuchKey),
   Error (ErrGetObject "wal-demo/00000000000000000005" NoSuchKey),
   Ok (mkRecord 2 (str_bytes "Record #2"))).
Proof. vm_compute. reflexivity. Qed.


(** ** Decimal digits *)

Lemma dec_fixed_snoc k u :
  dec_fixed (S k) u = dec_fixed k (u / 10) ++ [digit_char (u mod 10)].
Proof.
  revert u. induction k as [|k IH]; intros u.
  - simpl. now rewrite N.div_1_r.
  - change (dec_fixed (S (S k)) u) with
      (digit_char ((u / 10 ^ N.of_nat (S k)) mod 10) :: dec_fixed (S k) u).
    rewrite IH. simpl. f_equal. f_equal. f_equal.
    rewrite N.Div0.div_div by (try apply N.pow_nonzero; lia).
    f_equal. rewrite Nnat.Nat2N.inj_succ, N.pow_succ_r'. lia.
Qed.

Lemma dec_fixed_zero k : dec_fixed k 0 = repeat "0"%char k.
Proof.
  induction k as [|k IH]; [done|]. simpl. rewrite IH.
  rewrite N.Div0.div_0_l by (apply N.pow_nonzero; lia). done.
Qed.

Lemma zero_pad_cons_repeat k c acc :
  zero_pad (S k + length acc) (c :: acc) = repeat "0"%char k ++ c :: acc.
Proof. unfold zero_pad. simpl. f_equal. f_equal. lia. Qed.

Lemma fmt_digits_fixed f k u acc :
  (1 <= k <= S f)%nat -> u < 10 ^ N.of_nat k ->
  zero_pad (k + length acc) (fmt_digits f u acc) = dec_fixed k u ++ acc.
Proof.
  revert k u acc. induction f as [|f IH]; intros k u acc Hk Hu.
  - assert (k = 1%nat) as -> by lia. simpl in *.
    unfold zero_pad. simpl. rewrite Nat.sub_diag. simpl.
    rewrite N.div_1_r, N.mod_small by lia. done.
  - simpl. destruct (10 <=? u) eqn:H10.
    + apply N.leb_le in H10.
      destruct k as [|k]; [lia|].
      destruct k as [|k].
      { simpl in Hu. lia. }
      replace (S (S k) + length acc)%nat with (S k + length (digit_char (u mod 10) :: acc))%nat
        by (simpl; lia).
      rewrite IH; [| lia |].
      * rewrite (dec_fixed_snoc (S k) u), <- app_assoc. done.
      * apply N.Div0.div_lt_upper_bound.
        rewrite Nnat.Nat2N.inj_succ, N.pow_succ_r' in Hu. lia.
    + apply N.leb_gt in H10. destruct k as [|k]; [lia|].
      rewrite zero_pad_cons_repeat, dec_fixed_snoc, N.div_small, dec_fixed_zero by lia.
      rewrite N.mod_small by lia. rewrite <- app_assoc. done.
Qed.

Lemma two64_lt_pow20 : two64 < 10 ^ N.of_nat 20.
Proof. vm_compute. done. Qed.

Lemma sprintf_020d_fixed u :
  u < two64 -> sprintf_020d u = string_of_list_ascii (dec_fixed 20 u).
Proof.
  intros Hu. unfold sprintf_020d. f_equal.
  pose proof (fmt_digits_fixed 20 20 u [] ltac:(lia)) as H.
  rewrite app_nil_r in H. simpl length in H. rewrite Nat.add_0_r in H.
  apply H. pose proof two64_lt_pow20. lia.
Qed.

Lemma digit_char_N d : d < 10 -> N_of_ascii (digit_char d) = 48 + d.
Proof. intros Hd. unfold digit_char. apply N_ascii_embedding. lia. Qed.

Lemma digit_val_char d : d < 10 -> digit_val (digit_char d) = Some d.
Proof.
  intros Hd. unfold digit_val. rewrite digit_char_N by done.
  replace (48 <=? 48 + d) with true by (symmetry; apply N.leb_le; lia).
  replace (48 + d <=? 57) with true by (symmetry; apply N.leb_le; lia).
  simpl. f_equal. lia.
Qed.

Lemma digit_char_not_slash d : d < 10 -> digit_char d <> "/"%char.
Proof.
  intros Hd Heq. apply (f_equal N_of_ascii) in Heq.
  rewrite digit_char_N in Heq by done. simpl in Heq. lia.
Qed.

Lemma dec_fixed_no_slash k u : "/"%char ∉ dec_fixed k u.
Proof.
  induction k as [|k IH]; simpl.
  - apply not_elem_of_nil.
  - rewrite elem_of_cons. intros [H|H]; [|done].
    symmetry in H. revert H. apply digit_char_not_slash.
    apply N.mod_lt. lia.
Qed.

Lemma parse_digits_snoc l c n :
  parse_digits (l ++ [c]) n =
  match parse_digits l n with
  | None => None
  | Some m => parse_digits [c] m
  end.
Proof.
  revert n. induction l as [|c' l IH]; intros n; [done|].
  simpl. destruct (digit_val c') as [d|]; [|done].
  destruct (cutoff <=? n); [done|].
  destruct (maxUint64 <? n * 10 + d); [done|]. apply IH.
Qed.

Lemma parse_dec_fixed k u :
  u < two64 -> parse_digits (dec_fixed k u) 0 = Some (u mod 10 ^ N.of_nat k).
Proof.
  revert u. induction k as [|k IH]; intros u Hu.
  - simpl. rewrite N.mod_1_r. done.
  - rewrite dec_fixed_snoc, parse_digits_snoc.
    assert (Hq : u / 10 < two64) by (apply N.Div0.div_lt_upper_bound; unfold two64 in *; lia).
    rewrite IH by done. simpl.
    rewrite digit_val_char by (apply N.mod_lt; lia).
    assert (Hm : (u / 10) mod 10 ^ N.of_nat k <= u / 10) by apply N.Div0.mod_le.
    assert (Hc : u / 10 < cutoff).
    { unfold cutoff, maxUint64.
      assert (u / 10 <= (two64 - 1) / 10) by (apply N.Div0.div_le_mono; lia). lia. }
    replace (cutoff <=? (u / 10) mod 10 ^ N.of_nat k) with false
      by (symmetry; apply N.leb_gt; lia).
    assert (Hsplit : u mod 10 ^ N.of_nat (S k) =
                     (u / 10) mod 10 ^ N.of_nat k * 10 + u mod 10).
    { rewrite Nnat.Nat2N.inj_succ, N.pow_succ_r', N.Div0.mod_mul_r. lia. }
    rewrite <- Hsplit.
    assert (u mod 10 ^ N.of_nat (S k) <= u) by apply N.Div0.mod_le.
    replace (maxUint64 <? u mod 10 ^ N.of_nat (S k)) with false
      by (symmetry; apply N.ltb_ge; unfold maxUint64; lia).
    done.
Qed.

Lemma list_ascii_of_string_append s1 s2 :
  list_ascii_of_string (String.append s1 s2) =
  list_ascii_of_string s1 ++ list_ascii_of_string s2.
Proof. induction s1 as [|c s1 IH]; simpl; [done|]. by rewrite IH. Qed.

Lemma last_index_from_app l1 l2 c i best :
  last_index_from (l1 ++ l2) c i best =
  last_index_from l2 c (i + Z.of_nat (length l1)) (last_index_from l1 c i best).
Proof.
  revert i best. induction l1 as [|x l1 IH]; intros i best; simpl.
  - by rewrite Z.add_0_r.
  - rewrite IH. f_equal. lia.
Qed.

Lemma last_index_from_absent l c i best :
  c ∉ l -> last_index_from l c i best = best.
Proof.
  revert i best. induction l as [|x l IH]; intros i best Hc; [done|].
  simpl. rewrite elem_of_cons in Hc.
  destruct (ascii_dec x c) as [->|]; [tauto|]. apply IH. tauto.
Qed.

Lemma getObjectKey_ascii prefix u :
  u < two64 ->
  list_ascii_of_string (getObjectKey prefix u) =
  list_ascii_of_string prefix ++ "/"%char :: dec_fixed 20 u.
Proof.
  intros Hu. unfold getObjectKey. rewrite sprintf_020d_fixed by done.
  rewrite !list_ascii_of_string_append, list_ascii_of_string_of_list_ascii.
  done.
Qed.

Lemma length_dec_fixed k u : length (dec_fixed k u) = k.
Proof. induction k; simpl; auto. Qed.

Lemma getOffsetFromKey_split key lp ds :
  list_ascii_of_string key = lp ++ "/"%char :: ds ->
  "/"%char ∉ ds -> ds <> [] ->
  getOffsetFromKey key = ParseUint ds.
Proof.
  intros Hk Hs Hne. unfold getOffsetFromKey, LastIndexByte. cbv zeta.
  rewrite Hk, last_index_from_app.
  cbn [last_index_from].
  destruct (ascii_dec "/" "/") as [_|]; [|done].
  rewrite last_index_from_absent by done.
  rewrite length_app. cbn [length].
  destruct ds as [|d ds']; [done|]. cbn [length].
  replace ((0 + Z.of_nat (length lp) <? 0)%Z) with false by (symmetry; apply Z.ltb_ge; lia).
  replace ((0 + Z.of_nat (length lp) =? Z.of_nat (length lp + S (S (length ds'))) - 1)%Z)
    with false by (symmetry; apply Z.eqb_neq; lia).
  cbn [orb]. replace (Z.to_nat (0 + Z.of_nat (length lp) + 1)) with (length lp + 1)%nat by lia.
  rewrite drop_app_add'; [|lia]. done.
Qed.

(** Decoding the key of an offset gives the offset back. *)
Lemma getOffsetFromKey_getObjectKey prefix u :
  u < two64 -> getOffsetFromKey (getObjectKey prefix u) = Some u.
Proof.
  intros Hu.
  rewrite (getOffsetFromKey_split _ (list_ascii_of_string prefix) (dec_fixed 20 u)).
  - unfold ParseUint. rewrite parse_dec_fixed by done. f_equal.
    apply N.mod_small. pose proof two64_lt_pow20. lia.
  - by apply getObjectKey_ascii.
  - apply dec_fixed_no_slash.
  - done.
Qed.

(** ** Key order *)

Lemma ascii_compare_refl c : Ascii.compare c c = Eq.
Proof. unfold Ascii.compare. apply N.compare_refl. Qed.

Lemma string_compare_append_l p s1 s2 :
  String.compare (String.append p s1) (String.append p s2) = String.compare s1 s2.
Proof.
  induction p as [|c p IH]; [done|]. simpl. by rewrite ascii_compare_refl.
Qed.

Lemma N_compare_add_l c x y : N.compare (c + x) (c + y) = N.compare x y.
Proof.
  destruct (N.compare_spec x y) as [->|H|H].
  - apply N.compare_refl.
  - apply N.compare_lt_iff. lia.
  - apply N.compare_gt_iff. lia.
Qed.

Lemma ascii_compare_digit x y :
  x < 10 -> y < 10 -> Ascii.compare (digit_char x) (digit_char y) = N.compare x y.
Proof.
  intros Hx Hy. unfold Ascii.compare. rewrite !digit_char_N by done.
  apply N_compare_add_l.
Qed.

(** Comparing [x * P + r] with [y * P + s], [r, s < P]: first [x] against
    [y], then [r] against [s]. *)
Lemma N_compare_lex x y r s P :
  r < P -> s < P ->
  N.compare (x * P + r) (y * P + s) =
  match N.compare x y with Eq => N.compare r s | c => c end.
Proof.
  intros Hr Hs. destruct (N.compare_spec x y) as [->|Hxy|Hxy].
  - apply N_compare_add_l.
  - apply N.compare_lt_iff.
    assert (x * P + P <= y * P) by (replace (x * P + P) with ((x + 1) * P) by lia; nia). lia.
  - apply N.compare_gt_iff.
    assert (y * P + P <= x * P) by (replace (y * P + P) with ((y + 1) * P) by lia; nia). lia.
Qed.

Lemma compare_dec_fixed k a b :
  String.compare (string_of_list_ascii (dec_fixed k a))
                 (string_of_list_ascii (dec_fixed k b)) =
  N.compare (a mod 10 ^ N.of_nat k) (b mod 10 ^ N.of_nat k).
Proof.
  induction k as [|k IH].
  - simpl. by rewrite !N.mod_1_r.
  - cbn [dec_fixed string_of_list_ascii String.compare].
    rewrite ascii_compare_digit by (apply N.mod_lt; lia).
    assert (Hsplit : forall u, u mod 10 ^ N.of_nat (S k) =
              (u / 10 ^ N.of_nat k) mod 10 * 10 ^ N.of_nat k + u mod 10 ^ N.of_nat k).
    { intros u. rewrite Nnat.Nat2N.inj_succ, N.pow_succ_r', N.mul_comm, N.Div0.mod_mul_r.
      ring. }
    rewrite !Hsplit, N_compare_lex by (apply N.mod_lt, N.pow_nonzero; lia).
    rewrite IH. by destruct (N.compare _ _).
Qed.

Lemma compare_getObjectKey prefix a b :
  a < two64 -> b < two64 ->
  String.compare (getObjectKey prefix a) (getObjectKey prefix b) = N.compare a b.
Proof.
  intros Ha Hb. unfold getObjectKey.
  rewrite !string_compare_append_l, !sprintf_020d_fixed by done.
  rewrite compare_dec_fixed. pose proof two64_lt_pow20.
  rewrite !N.mod_small by lia. done.
Qed.

(** ** Big-endian offsets *)

Lemma to_N_byte_of_N x : x < 256 -> Byte.to_N (byte_of_N x) = x.
Proof.
  intros Hx. unfold byte_of_N. destruct (Byte.of_N x) as [y|] eqn:E.
  - by apply Byte.to_of_N.
  - apply Byte.of_N_None_iff in E. lia.
Qed.

Lemma length_put_be k v : length (put_be k v) = k.
Proof.
  revert v. induction k as [|k IH]; intros v; [done|].
  simpl. rewrite length_app, IH. simpl. lia.
Qed.

Lemma be_uint64_put_be k v : be_uint64 (put_be k v) = v mod 256 ^ N.of_nat k.
Proof.
  revert v. induction k as [|k IH]; intros v.
  - simpl. by rewrite N.mod_1_r.
  - cbn [put_be]. unfold be_uint64 in *. rewrite fold_left_app, IH. cbn [fold_left].
    replace 255 with (N.ones 8) by reflexivity.
    rewrite N.land_ones, N.shiftr_div_pow2.
    change (2 ^ 8) with 256.
    rewrite to_N_byte_of_N by (apply N.mod_lt; lia).
    rewrite Nnat.Nat2N.inj_succ, N.pow_succ_r', N.Div0.mod_mul_r. ring.
Qed.

Lemma be_uint64_put_uint64 v : v < two64 -> be_uint64 (put_uint64 v) = v.
Proof.
  intros Hv. unfold put_uint64. rewrite be_uint64_put_be.
  apply N.mod_small. exact Hv.
Qed.

Lemma length_put_uint64 v : length (put_uint64 v) = 8%nat.
Proof. apply length_put_be. Qed.

(** ** Record framing *)

Section Framing.

Variable sha256 : list byte -> list byte.
Hypothesis sha256_size : forall l, length (sha256 l) = 32%nat.

Lemma prepareBody_eq offset data :
  prepareBody sha256 offset data =
  Some ((put_uint64 offset ++ data) ++ sha256 (put_uint64 offset ++ data)).
Proof. unfold prepareBody. by rewrite sha256_size. Qed.

Lemma decode_body_frame key offset data :
  offset < two64 ->
  decode_body sha256 key offset
    ((put_uint64 offset ++ data) ++ sha256 (put_uint64 offset ++ data)) =
  Ok (mkRecord offset data).
Proof.
  intros Hoff. unfold decode_body.
  set (pre := put_uint64 offset ++ data).
  assert (Hpre : length pre = (8 + length data)%nat)
    by (unfold pre; rewrite length_app, length_put_uint64; done).
  assert (Hlen : length (pre ++ sha256 pre) = (8 + length data + 32)%nat)
    by (rewrite length_app, sha256_size, Hpre; done).
  rewrite Hlen.
  replace (Nat.ltb (8 + length data + 32) (8 + 32)) with false
    by (symmetry; apply Nat.ltb_ge; lia).
  assert (Htake8 : take 8 (pre ++ sha256 pre) = put_uint64 offset).
  { unfold pre. rewrite <- app_assoc.
    pose proof (take_app_length (put_uint64 offset)
                  (data ++ sha256 (put_uint64 offset ++ data))) as H.
    rewrite length_put_uint64 in H. exact H. }
  rewrite Htake8, be_uint64_put_uint64 by done. rewrite N.eqb_refl. cbn [negb].
  assert (Hval : validateChecksum sha256 (pre ++ sha256 pre) = true).
  { unfold validateChecksum. rewrite Hlen.
    replace (Nat.ltb (8 + length data + 32) 32) with false
      by (symmetry; apply Nat.ltb_ge; lia).
    replace (8 + length data + 32 - 32)%nat with (length pre) by lia.
    rewrite take_app_length, drop_app_length. by apply bool_decide_eq_true. }
  rewrite Hval. cbn [negb]. f_equal. f_equal.
  replace (8 + length data + 32 - 8 - 32)%nat with (length data) by lia.
  unfold pre. rewrite <- app_assoc.
  pose proof (drop_app_length (put_uint64 offset)
                (data ++ sha256 (put_uint64 offset ++ data))) as H.
  rewrite length_put_uint64 in H. rewrite H.
  apply take_app_length.
Qed.

End Framing.

(** ** Listing *)

Lemma chunk_concat fuel l : (length l <= fuel)%nat -> concat (chunk fuel l) = l.
Proof.
  revert l. induction fuel as [|f IH]; intros l Hl.
  - destruct l; [done|simpl in Hl; lia].
  - destruct l as [|x l]; [done|]. cbn [chunk]. cbn [concat].
    rewrite IH; [apply take_drop|].
    rewrite length_drop. unfold page_size. simpl in *. lia.
Qed.

Lemma pages_concat l : concat (pages l) = l.
Proof.
  unfold pages. destruct (chunk (length l) l) as [|p ps] eqn:E.
  - destruct l as [|x l]; [done|]. simpl in E. discriminate.
  - rewrite <- E. by apply chunk_concat.
Qed.

Lemma pages_ok_cons net i p ps :
  pages_ok net i (p :: ps) = negb (list_fails net i) && pages_ok net (S i) ps.
Proof. done. Qed.

Lemma last_key_pages_spec net i ps k0 :
  last_key_pages net i ps k0 =
  if pages_ok net i ps
  then Some (match last (concat ps) with Some k => k | None => k0 end)
  else None.
Proof.
  revert i k0. induction ps as [|p ps IH]; intros i k0; [done|].
  rewrite pages_ok_cons. cbn [last_key_pages concat].
  destruct (list_fails net i); [done|]. cbn [negb andb].
  rewrite IH. destruct (pages_ok net (S i) ps); [|done].
  rewrite last_app. by destruct (last (concat ps)), (last p).
Qed.

Lemma recover_pages_spec net i ps m :
  recover_pages net i ps m =
  if pages_ok net i ps then Some (fold_left recover_obj (concat ps) m) else None.
Proof.
  revert i m. induction ps as [|p ps IH]; intros i m; [done|].
  rewrite pages_ok_cons. cbn [recover_pages concat].
  destruct (list_fails net i); [done|]. cbn [negb andb].
  rewrite IH, fold_left_app. done.
Qed.

Lemma recover_fold_ge l m : m <= fold_left recover_obj l m.
Proof.
  revert m. induction l as [|k l IH]; intros m; simpl; [lia|].
  unfold recover_obj at 2. destruct (getOffsetFromKey k) as [o|]; [|apply IH].
  destruct (m <? o) eqn:E.
  - apply N.ltb_lt in E. etrans; [|apply IH]. lia.
  - apply IH.
Qed.

Lemma recover_fold_upper l m k o :
  k ∈ l -> getOffsetFromKey k = Some o -> o <= fold_left recover_obj l m.
Proof.
  revert m. induction l as [|k' l IH]; intros m Hk Ho; [by apply not_elem_of_nil in Hk|].
  simpl. apply elem_of_cons in Hk as [->|Hk]; [|by apply IH].
  etrans; [|apply recover_fold_ge]. unfold recover_obj. rewrite Ho.
  destruct (m <? o) eqn:E; [lia|apply N.ltb_ge in E; lia].
Qed.

Lemma recover_fold_attained l m :
  fold_left recover_obj l m = m \/
  exists k, k ∈ l /\ getOffsetFromKey k = Some (fold_left recover_obj l m).
Proof.
  revert m. induction l as [|k l IH]; intros m; [by left|].
  simpl. destruct (IH (recover_obj m k)) as [H|[k' [Hk' Ho]]].
  - rewrite H. unfold recover_obj. destruct (getOffsetFromKey k) as [o|] eqn:Ho; [|by left].
    destruct (m <? o); [|by left]. right. exists k. split; [apply list_elem_of_here|done].
  - right. exists k'. split; [by apply list_elem_of_further|done].
Qed.

Lemma elem_of_list_keys b pfx k :
  k ∈ list_keys b pfx <-> is_Some (b !! k) /\ String.prefix pfx k = true.
Proof.
  unfold list_keys. rewrite (merge_sort_Permutation String.le).
  rewrite list_elem_of_filter, elem_of_elements, elem_of_dom. tauto.
Qed.

Lemma list_keys_sorted b pfx : StronglySorted String.le (list_keys b pfx).
Proof. apply StronglySorted_merge_sort; apply _. Qed.

Lemma StronglySorted_last {A} (R : relation A) l x y :
  StronglySorted R l -> last l = Some x -> y ∈ l -> y = x \/ R y x.
Proof.
  induction l as [|a l IH]; intros Hs Hl Hy; [done|].
  apply StronglySorted_cons in Hs as [Hall Hs].
  rewrite last_cons in Hl.
  destruct (last l) as [x'|] eqn:El.
  - injection Hl as <-. apply elem_of_cons in Hy as [->|Hy].
    + right. rewrite Forall_forall in Hall. apply Hall. by apply last_Some_elem_of.
    + by apply IH.
  - injection Hl as <-. apply last_None in El as ->.
    apply elem_of_cons in Hy as [->|Hy]; [by left|by apply not_elem_of_nil in Hy].
Qed.

(** ** Truncate deletes exactly the keys past the offset *)

Lemma lookup_foldr_delete (b : bucket) (l : list string) key :
  foldr delete b l !! key = if decide (key ∈ l) then None else b !! key.
Proof.
  induction l as [|k l IH]; simpl.
  - destruct (decide (key ∈ [])) as [H|]; [by apply not_elem_of_nil in H|done].
  - destruct (decide (k = key)) as [->|Hne].
    + rewrite lookup_delete_eq. destruct (decide (key ∈ key :: l)) as [|H]; [done|].
      exfalso. apply H. apply list_elem_of_here.
    + rewrite lookup_delete_ne by done. rewrite IH.
      destruct (decide (key ∈ l)), (decide (key ∈ k :: l)); try done;
        rewrite elem_of_cons in *; naive_solver.
Qed.

Lemma filter_none_rejected (net : Net) (keys : list string) :
  filter (fun k => delete_rejects net k = true) keys = [] ->
  filter (fun k => delete_rejects net k = false) keys = keys.
Proof.
  induction keys as [|k keys IH]; [done|].
  rewrite !filter_cons. destruct (delete_rejects net k); simpl.
  - discriminate.
  - intros H. f_equal. by apply IH.
Qed.

Lemma batchDelete_ok net j b keys b' :
  batchDelete net j b keys = (None, b') -> b' = foldr delete b keys.
Proof.
  unfold batchDelete. destruct keys as [|k keys]; [intros H; by injection H as <-|].
  destruct (delete_fails net j); [congruence|].
  destruct (filter (fun k0 => delete_rejects net k0 = true) (k :: keys)) eqn:E; [|congruence].
  intros H. injection H as <-. by rewrite filter_none_rejected.
Qed.

Ltac decide_cases :=
  repeat match goal with
  | |- context [decide ?P] => destruct (decide P)
  end;
  rewrite ?elem_of_app, ?elem_of_cons, ?elem_of_nil in *; try naive_solver.

Lemma truncate_objs_ok net after objs b pending j b1 pend1 j1 :
  truncate_objs net after objs b pending j = (None, b1, pend1, j1) ->
  forall key,
    (if decide (key ∈ pend1) then None else b1 !! key) =
    (if decide (key ∈ pending ++ to_delete after objs) then None else b !! key).
Proof.
  revert b pending j. induction objs as [|k objs IH]; intros b pending j H key.
  - injection H as <- <- <-. by rewrite app_nil_r.
  - cbn [truncate_objs] in H. unfold to_delete. rewrite filter_cons.
    fold (to_delete after objs).
    destruct (decide (past after k = true)) as [Hp|Hp]; unfold past in Hp;
      destruct (getOffsetFromKey k) as [o|] eqn:Ho; [| discriminate | |].
    + rewrite Hp in H.
      destruct (Nat.eqb (length (pending ++ [k])) 1000).
      * destruct (batchDelete net j b (pending ++ [k])) as [[e|] bb] eqn:Hb; [discriminate|].
        apply batchDelete_ok in Hb. subst bb.
        rewrite (IH _ _ _ H key), lookup_foldr_delete. simpl. decide_cases.
      * rewrite (IH _ _ _ H key), <- app_assoc. done.
    + apply not_true_is_false in Hp. rewrite Hp in H.
      destruct (Nat.eqb (length pending) 1000).
      * destruct (batchDelete net j b pending) as [[e|] bb] eqn:Hb; [discriminate|].
        apply batchDelete_ok in Hb. subst bb.
        rewrite (IH _ _ _ H key), lookup_foldr_delete. simpl. decide_cases.
      * by rewrite (IH _ _ _ H key).
    + by apply (IH _ _ _ H).
Qed.

Lemma to_delete_app after l1 l2 :
  to_delete after (l1 ++ l2) = to_delete after l1 ++ to_delete after l2.
Proof. apply filter_app. Qed.

Lemma truncate_pages_ok net after i ps b pending j b1 pend1 j1 :
  truncate_pages net after i ps b pending j = (None, b1, pend1, j1) ->
  forall key,
    (if decide (key ∈ pend1) then None else b1 !! key) =
    (if decide (key ∈ pending ++ to_delete after (concat ps)) then None else b !! key).
Proof.
  revert i b pending j. induction ps as [|p ps IH]; intros i b pending j H key.
  - injection H as <- <- <-. by rewrite app_nil_r.
  - cbn [truncate_pages] in H. destruct (list_fails net i); [discriminate|].
    destruct (truncate_objs net after p b pending j) as [[[[e|] b2] pend2] j2] eqn:Ho;
      [discriminate|].
    rewrite (IH _ _ _ _ H key). cbn [concat]. rewrite to_delete_app, app_assoc.
    pose proof (truncate_objs_ok _ _ _ _ _ _ _ _ _ Ho key) as Hk.
    revert Hk. decide_cases.
Qed.

Lemma Truncate_ok w b net after w' b' :
  Truncate w b net after = (Ok tt, w', b') ->
  w' = set_length w (if after =? 0 then 0 else after) /\
  forall key, b' !! key =
    if decide (key ∈ to_delete after (list_keys b (list_prefix w))) then None
    else b !! key.
Proof.
  unfold Truncate.
  destruct (truncate_pages net after 0 (pages (list_keys b (list_prefix w))) b [] 0)
    as [[[[e|] b1] pend] j] eqn:Ht; [congruence|].
  pose proof (truncate_pages_ok _ _ _ _ _ _ _ _ _ _ Ht) as Hk.
  rewrite pages_concat in Hk. cbn [app] in Hk.
  destruct (Nat.ltb 0 (length pend)) eqn:Hl.
  - destruct (batchDelete net j b1 pend) as [[e|] b2] eqn:Hb; [congruence|].
    intros H. injection H as <- <-. split; [done|].
    apply batchDelete_ok in Hb. subst b2. intros key.
    rewrite lookup_foldr_delete. apply Hk.
  - intros H. injection H as <- <-. split; [done|].
    apply Nat.ltb_ge in Hl. destruct pend; [|simpl in Hl; lia].
    intros key. rewrite <- (Hk key). destruct (decide (key ∈ [])) as [Hin|]; [|done].
    by apply not_elem_of_nil in Hin.
Qed.

Lemma elem_of_to_delete_keys after b pfx key :
  key ∈ to_delete after (list_keys b pfx) <->
  is_Some (b !! key) /\ String.prefix pfx key = true /\ past after key = true.
Proof.
  unfold to_delete. rewrite list_elem_of_filter, elem_of_list_keys. tauto.
Qed.

Lemma Truncate_lookup w b net after w' b' :
  Truncate w b net after = (Ok tt, w', b') ->
  w_length w' = after /\ w_prefix w' = w_prefix w /\
  forall key, b' !! key =
    if String.prefix (list_prefix w) key && past after key then None else b !! key.
Proof.
  intros H. apply Truncate_ok in H as [-> Hk].
  split; [simpl; destruct (N.eqb_spec after 0); lia|split; [done|]].
  intros key. rewrite Hk.
  destruct (decide _) as [Hin|Hin].
  - apply elem_of_to_delete_keys in Hin as (_ & -> & ->). done.
  - destruct (String.prefix (list_prefix w) key) eqn:E1, (past after key) eqn:E2;
      try done.
    destruct (b !! key) eqn:E3; [|done]. exfalso. apply Hin.
    apply elem_of_to_delete_keys. rewrite E3. done.
Qed.

(** ** Keys under the listing prefix *)

Lemma prefix_append_same p s t :
  String.prefix (String.append p s) (String.append p t) = String.prefix s t.
Proof.
  induction p as [|c p IH]; [done|]. simpl.
  destruct (ascii_dec c c); [done|congruence].
Qed.

Lemma prefix_getObjectKey w i :
  String.prefix (list_prefix w) (getObjectKey (w_prefix w) i) = true.
Proof.
  unfold list_prefix, getObjectKey. rewrite prefix_append_same. simpl.
  by destruct (sprintf_020d i).
Qed.

Lemma prefix_list_prefix_nonempty w : String.prefix (list_prefix w) "" = false.
Proof. unfold list_prefix. by destruct (w_prefix w). Qed.


Lemma Recover_eq w b net :
  Recover w b net =
  if pages_ok net 0 (pages (list_keys b (list_prefix w)))
  then (Ok (fold_left recover_obj (list_keys b (list_prefix w)) 0),
        set_length w (fold_left recover_obj (list_keys b (list_prefix w)) 0), b)
  else (Error ErrListObjects, w, b).
Proof.
  unfold Recover. rewrite recover_pages_spec, pages_concat.
  by destruct (pages_ok _ _ _).
Qed.

Lemma LastRecord_eq sha256 w b net :
  LastRecord sha256 w b net =
  if pages_ok net 0 (pages (list_keys b (list_prefix w))) then
    match last (list_keys b (list_prefix w)) with
    | None => (Error ErrEmpty, set_length w 0, b)
    | Some lastKey =>
        match getOffsetFromKey lastKey with
        | None => (Error (ErrParseLastKey lastKey), w, b)
        | Some offset =>
            (Read sha256 (set_length w offset) b net offset, set_length w offset, b)
        end
    end
  else (Error ErrListObjects, w, b).
Proof.
  unfold LastRecord. rewrite last_key_pages_spec, pages_concat.
  destruct (pages_ok _ _ _); [|done].
  destruct (last (list_keys b (list_prefix w))) as [k|] eqn:El; [|done].
  apply last_Some_elem_of, elem_of_list_keys in El as [_ Hp].
  destruct (String.eqb_spec k "") as [->|]; [|done].
  by rewrite prefix_list_prefix_nonempty in Hp.
Qed.

(** * Claims *)

(** ** C4 *)

(** C4: for every offset (a uint64) and every byte sequence, [prepareBody]
    yields [BE64(offset) ‖ data ‖ SHA-256(BE64(offset) ‖ data)], of length at
    least 40 (exactly [40 + |data|]); the checks [Read] applies to a body
    fetched at the key of that offset accept it and give back
    [(offset, data)], with [|data| = |body| - 40]. *)
Theorem prepareBody_decode_roundtrip (sha256 : list byte -> list byte)
    (sha256_size : forall l, length (sha256 l) = 32%nat)
    (prefix : string) (offset : N) (data : list byte)
    (Hoff : offset < two64) :
  let body := (put_uint64 offset ++ data) ++ sha256 (put_uint64 offset ++ data) in
  prepareBody sha256 offset data = Some body /\
  (40 <= length body)%nat /\
  decode_body sha256 (getObjectKey prefix offset) offset body = Ok (mkRecord offset data) /\
  length data = (length body - 40)%nat.
Proof.
  cbv zeta. split; [by apply prepareBody_eq|].
  assert (Hl : length ((put_uint64 offset ++ data) ++ sha256 (put_uint64 offset ++ data))
               = (8 + length data + 32)%nat)
    by (rewrite !length_app, sha256_size, length_put_uint64; lia).
  rewrite Hl. split; [lia|]. split; [by apply decode_body_frame|lia].
Qed.

Lemma prepareBody_decode_roundtrip_witness :
  (forall l, length (toy_hash l) = 32%nat) /\ 7 < two64 /\
  let body := (put_uint64 7 ++ [x01; x02]) ++ toy_hash (put_uint64 7 ++ [x01; x02]) in
  prepareBody toy_hash 7 [x01; x02] = Some body /\
  (40 <= length body)%nat /\
  decode_body toy_hash (getObjectKey "wal" 7) 7 body = Ok (mkRecord 7 [x01; x02]) /\
  length [x01; x02] = (length body - 40)%nat.
Proof.
  assert (H : forall l, length (toy_hash l) = 32%nat) by (intros l; reflexivity).
  split; [exact H|]. split; [vm_compute; reflexivity|].
  apply (prepareBody_decode_roundtrip toy_hash H "wal" 7 [x01; x02]).
  vm_compute. reflexivity.
Defined.

(** ** C5 *)

(** C5: for uint64 offsets, decoding the key of [a] gives [a] back (so the
    encoding is injective), and for [a < b] the key of [a] is
    lexicographically (byte-wise, as S3 lists) smaller than the key of [b]. *)
Theorem getObjectKey_roundtrip_order (prefix : string) (a b : N)
    (Ha : a < two64) (Hb : b < two64) :
  getOffsetFromKey (getObjectKey prefix a) = Some a /\
  (a < b -> String.compare (getObjectKey prefix a) (getObjectKey prefix b) = Lt).
Proof.
  split; [by apply getOffsetFromKey_getObjectKey|].
  intros Hab. rewrite compare_getObjectKey by done. by apply N.compare_lt_iff.
Qed.

Lemma getObjectKey_roundtrip_order_witness :
  getOffsetFromKey (getObjectKey "wal" 9) = Some 9 /\
  (9 < 10 -> String.compare (getObjectKey "wal" 9) (getObjectKey "wal" 10) = Lt).
Proof.
  apply getObjectKey_roundtrip_order; vm_compute; reflexivity.
Defined.

(** ** C1 *)

(** C1 (amended): a successful [Append(data)] returns
    [o = (cached length + 1) mod 2^64], the uint64 sum the code computes,
    sets the cached length to [o], and a following [Read(o)] on the
    unchanged store returns the record [(o, data)]. *)
Theorem Append_then_Read (sha256 : list byte -> list byte)
    (sha256_size : forall l, length (sha256 l) = 32%nat)
    (w : S3WAL) (b : bucket) (net net' : Net) (data : list byte)
    (o : N) (w' : S3WAL) (b' : bucket)
    (Happ : Append sha256 w b net data = (Ok o, w', b'))
    (Hget : get_fails net' = false) :
  o = add64 (w_length w) 1 /\ w_length w' = o /\
  Read sha256 w' b' net' o = Ok (mkRecord o data).
Proof.
  unfold Append in Happ. rewrite prepareBody_eq in Happ by done.
  destruct (put_fails net); [discriminate|].
  injection Happ as <- <- <-. split; [done|]. split; [done|].
  unfold Read. rewrite Hget. cbn [w_prefix set_length].
  rewrite lookup_insert_eq. apply decode_body_frame; [done|].
  unfold add64. apply N.mod_lt. unfold two64. lia.
Qed.

Lemma Append_then_Read_witness :
  let '(r, w', b') := Append toy_hash (NewS3WAL "wal") ∅ reliable [x01] in
  r = Ok 1 /\
  (1 = add64 (w_length (NewS3WAL "wal")) 1 /\ w_length w' = 1 /\
   Read toy_hash w' b' reliable 1 = Ok (mkRecord 1 [x01])).
Proof.
  destruct (Append toy_hash (NewS3WAL "wal") ∅ reliable [x01]) as [[r w'] b'] eqn:E.
  assert (Hr : r = Ok 1).
  { assert (H := f_equal (fun t => fst (fst t)) E). vm_compute in H. by rewrite <- H. }
  subst r. split; [done|].
  apply (Append_then_Read toy_hash (fun l => eq_refl) _ _ reliable reliable [x01] 1 w' b' E).
  reflexivity.
Defined.

(** C1 counterexample: [Truncate(2^64-1)] sets the cached length to
    [2^64-1]; the next [Append] returns offset 0, not [2^64]. *)
Lemma Append_offset_wraps :
  let '(_, w1, b1) := Truncate (NewS3WAL "wal") ∅ reliable maxUint64 in
  w_length w1 = maxUint64 /\
  fst (fst (Append toy_hash w1 b1 reliable [x01])) = Ok 0 /\
  0 <> w_length w1 + 1.
Proof. vm_compute. split; [reflexivity|split; [reflexivity|discriminate]]. Qed.

(** ** C6 *)

(** C6: when the [PutObject] of [Append] fails, [Append] returns the put
    error for offset [cached length + 1] and leaves the handle (so the cached
    length) and the bucket unchanged; the next [Append] on that state uses
    the same offset again, whether its own put succeeds or fails. *)
Theorem Append_put_failure (sha256 : list byte -> list byte)
    (sha256_size : forall l, length (sha256 l) = 32%nat)
    (w : S3WAL) (b : bucket) (net net' : Net) (data data' : list byte)
    (Hput : put_fails net = true) :
  Append sha256 w b net data = (Error (ErrPutObject (add64 (w_length w) 1)), w, b) /\
  fst (fst (Append sha256 w b net' data')) =
    if put_fails net' then Error (ErrPutObject (add64 (w_length w) 1))
    else Ok (add64 (w_length w) 1).
Proof.
  unfold Append. rewrite !prepareBody_eq by done. rewrite Hput.
  split; [done|]. by destruct (put_fails net').
Qed.

Lemma Append_put_failure_witness :
  Append toy_hash (NewS3WAL "wal") ∅ (mkNet true false (fun _ => false) (fun _ => false) (fun _ => false)) [x01] =
    (Error (ErrPutObject (add64 (w_length (NewS3WAL "wal")) 1)), NewS3WAL "wal", ∅) /\
  fst (fst (Append toy_hash (NewS3WAL "wal") ∅ reliable [x02])) =
    if put_fails reliable then Error (ErrPutObject (add64 (w_length (NewS3WAL "wal")) 1))
    else Ok (add64 (w_length (NewS3WAL "wal")) 1).
Proof.
  apply (Append_put_failure toy_hash (fun l => eq_refl)). reflexivity.
Defined.

(** ** C9 *)

Lemma decode_body_not_get key offset data sha256 k c :
  decode_body sha256 key offset data <> Error (ErrGetObject k c).
Proof.
  unfold decode_body.
  destruct (Nat.ltb _ _); [discriminate|].
  destruct (negb _); [discriminate|]. destruct (negb _); discriminate.
Qed.

(** C9 (amended): [Read] has no special case for offset 0.  When its
    [GetObject] does not fail in transport, [Read(0)] fails with the
    missing-key error exactly when no object is stored at the key
    [prefix/00000000000000000000]; when that key holds a framed record for
    offset 0, [Read(0)] returns it. *)
Theorem Read_zero (sha256 : list byte -> list byte)
    (sha256_size : forall l, length (sha256 l) = 32%nat)
    (w : S3WAL) (b : bucket) (net : Net)
    (Hget : get_fails net = false) :
  (Read sha256 w b net 0 = Error (ErrGetObject (getObjectKey (w_prefix w) 0) NoSuchKey) <->
   b !! getObjectKey (w_prefix w) 0 = None) /\
  (forall data : list byte,
     b !! getObjectKey (w_prefix w) 0 =
       Some ((put_uint64 0 ++ data) ++ sha256 (put_uint64 0 ++ data)) ->
     Read sha256 w b net 0 = Ok (mkRecord 0 data)).
Proof.
  unfold Read. rewrite Hget. split.
  - destruct (b !! getObjectKey (w_prefix w) 0); [|done].
    split; [intros H; by apply decode_body_not_get in H|discriminate].
  - intros data ->. apply decode_body_frame; [done|]. vm_compute. done.
Qed.

Lemma Read_zero_witness :
  let t := Truncate (NewS3WAL "wal") ∅ reliable maxUint64 in
  let a := Append toy_hash (snd (fst t)) (snd t) reliable [x01] in
  w_length (snd (fst a)) = 0 /\
  snd a !! getObjectKey (w_prefix (snd (fst a))) 0 =
    Some ((put_uint64 0 ++ [x01]) ++ toy_hash (put_uint64 0 ++ [x01])) /\
  (Read toy_hash (snd (fst a)) (snd a) reliable 0 =
     Error (ErrGetObject (getObjectKey (w_prefix (snd (fst a))) 0) NoSuchKey) <->
   snd a !! getObjectKey (w_prefix (snd (fst a))) 0 = None) /\
  Read toy_hash (snd (fst a)) (snd a) reliable 0 = Ok (mkRecord 0 [x01]).
Proof.
  cbv zeta.
  destruct (Read_zero toy_hash (fun l => eq_refl)
              (snd (fst (Append toy_hash (snd (fst (Truncate (NewS3WAL "wal") ∅ reliable maxUint64)))
                 (snd (Truncate (NewS3WAL "wal") ∅ reliable maxUint64)) reliable [x01])))
              (snd (Append toy_hash (snd (fst (Truncate (NewS3WAL "wal") ∅ reliable maxUint64)))
                 (snd (Truncate (NewS3WAL "wal") ∅ reliable maxUint64)) reliable [x01]))
              reliable eq_refl) as [H1 H2].
  match goal with |- _ /\ ?L = ?R /\ _ => assert (Hl : L = R) by (vm_compute; reflexivity) end.
  split; [vm_compute; reflexivity|].
  split; [exact Hl|]. split; [exact H1|]. exact (H2 [x01] Hl).
Defined.

(** C9 counterexample: after [Truncate(2^64-1)] the next [Append] writes
    offset 0, and [Read(0)] then returns that record. *)
Lemma Read_zero_returns_record :
  let '(_, w1, b1) := Truncate (NewS3WAL "wal") ∅ reliable maxUint64 in
  let '(_, w2, b2) := Append toy_hash w1 b1 reliable [x01] in
  Read toy_hash w2 b2 reliable 0 = Ok (mkRecord 0 [x01]).
Proof. vm_compute. reflexivity. Qed.

(** ** C10 *)

(** C10: when the listing succeeds, [LastRecord] sets the cached length
    before it can fail: with no key under the prefix it returns the empty-log
    error with the cached length set to 0; with a last key decoding to
    [off] it sets the cached length to [off] and returns whatever the
    final [Read(off)] returns, so a failing [Read] still leaves the cached
    length at [off]. *)
Theorem LastRecord_updates_length (sha256 : list byte -> list byte)
    (w : S3WAL) (b : bucket) (net : Net)
    (Hlist : pages_ok net 0 (pages (list_keys b (list_prefix w))) = true) :
  (list_keys b (list_prefix w) = [] ->
   LastRecord sha256 w b net = (Error ErrEmpty, set_length w 0, b)) /\
  (forall k off, last (list_keys b (list_prefix w)) = Some k ->
   getOffsetFromKey k = Some off ->
   LastRecord sha256 w b net =
     (Read sha256 (set_length w off) b net off, set_length w off, b) /\
   w_length (snd (fst (LastRecord sha256 w b net))) = off).
Proof.
  rewrite LastRecord_eq, Hlist. split.
  - intros ->. done.
  - intros k off -> Hk. rewrite Hk. done.
Qed.

Lemma LastRecord_updates_length_witness :
  w_length (set_length (NewS3WAL "wal") 5) = 5 /\
  LastRecord toy_hash (set_length (NewS3WAL "wal") 5) ∅ reliable =
    (Error ErrEmpty, set_length (set_length (NewS3WAL "wal") 5) 0, ∅) /\
  (LastRecord toy_hash (set_length (NewS3WAL "wal") 5)
     (<[getObjectKey "wal" 2 := [x00]]> ∅) reliable =
     (Read toy_hash (set_length (set_length (NewS3WAL "wal") 5) 2)
        (<[getObjectKey "wal" 2 := [x00]]> ∅) reliable 2,
      set_length (set_length (NewS3WAL "wal") 5) 2, <[getObjectKey "wal" 2 := [x00]]> ∅) /\
   w_length (snd (fst (LastRecord toy_hash (set_length (NewS3WAL "wal") 5)
                         (<[getObjectKey "wal" 2 := [x00]]> ∅) reliable))) = 2 /\
   Read toy_hash (set_length (set_length (NewS3WAL "wal") 5) 2)
     (<[getObjectKey "wal" 2 := [x00]]> ∅) reliable 2 =
     Error (ErrTooShort (getObjectKey "wal" 2))).
Proof.
  assert (H0 : pages_ok reliable 0
                 (pages (list_keys ∅ (list_prefix (set_length (NewS3WAL "wal") 5)))) = true)
    by (vm_compute; reflexivity).
  assert (Hb : pages_ok reliable 0
                 (pages (list_keys (<[getObjectKey "wal" 2 := [x00]]> ∅)
                    (list_prefix (set_length (NewS3WAL "wal") 5)))) = true)
    by (vm_compute; reflexivity).
  destruct (LastRecord_updates_length toy_hash (set_length (NewS3WAL "wal") 5) ∅ reliable H0)
    as [E0 _].
  destruct (LastRecord_updates_length toy_hash (set_length (NewS3WAL "wal") 5)
              (<[getObjectKey "wal" 2 := [x00]]> ∅) reliable Hb) as [_ Eb].
  assert (Hlast : last (list_keys (<[getObjectKey "wal" 2 := [x00]]> ∅)
                          (list_prefix (set_length (NewS3WAL "wal") 5)))
                  = Some (getObjectKey "wal" 2)) by (vm_compute; reflexivity).
  assert (Hoff : getOffsetFromKey (getObjectKey "wal" 2) = Some 2)
    by (vm_compute; reflexivity).
  destruct (Eb _ _ Hlast Hoff) as [E L].
  split; [reflexivity|].
  split; [apply E0; vm_compute; reflexivity|].
  split; [exact E|]. split; [exact L|]. vm_compute; reflexivity.
Defined.

(** ** C3 *)

(** C3: [Recover] fails exactly when a page of the listing fails, and then
    changes nothing; otherwise it succeeds whatever keys are stored, returns
    [m], sets the cached length to [m], where [m] is at least every offset
    decoded from a stored key under the prefix (malformed keys are skipped)
    and is either such a decoded offset or 0. *)
Theorem Recover_max_offset (w : S3WAL) (b : bucket) (net : Net) :
  (pages_ok net 0 (pages (list_keys b (list_prefix w))) = false ->
   Recover w b net = (Error ErrListObjects, w, b)) /\
  (pages_ok net 0 (pages (list_keys b (list_prefix w))) = true ->
   exists m, Recover w b net = (Ok m, set_length w m, b) /\
     (forall k o, is_Some (b !! k) -> String.prefix (list_prefix w) k = true ->
        getOffsetFromKey k = Some o -> o <= m) /\
     (m = 0 \/ exists k, is_Some (b !! k) /\ String.prefix (list_prefix w) k = true /\
        getOffsetFromKey k = Some m)).
Proof.
  rewrite Recover_eq. split; intros ->; [done|].
  eexists. split; [reflexivity|]. split.
  - intros k o Hb Hp Ho. eapply recover_fold_upper; [|exact Ho].
    by apply elem_of_list_keys.
  - destruct (recover_fold_attained (list_keys b (list_prefix w)) 0)
      as [H|[k [Hk Ho]]]; [by left|right].
    exists k. apply elem_of_list_keys in Hk as [Hb Hp]. done.
Qed.

Lemma Recover_max_offset_witness :
  let b := <["wal/zzz" := []]> (snd (Append toy_hash (NewS3WAL "wal") ∅ reliable [x01])) in
  Recover (NewS3WAL "wal") b reliable = (Ok 1, set_length (NewS3WAL "wal") 1, b) /\
  ((pages_ok reliable 0 (pages (list_keys b (list_prefix (NewS3WAL "wal")))) = false ->
    Recover (NewS3WAL "wal") b reliable = (Error ErrListObjects, NewS3WAL "wal", b)) /\
   (pages_ok reliable 0 (pages (list_keys b (list_prefix (NewS3WAL "wal")))) = true ->
    exists m, Recover (NewS3WAL "wal") b reliable = (Ok m, set_length (NewS3WAL "wal") m, b) /\
     (forall k o, is_Some (b !! k) -> String.prefix (list_prefix (NewS3WAL "wal")) k = true ->
        getOffsetFromKey k = Some o -> o <= m) /\
     (m = 0 \/ exists k, is_Some (b !! k) /\
        String.prefix (list_prefix (NewS3WAL "wal")) k = true /\ getOffsetFromKey k = Some m))).
Proof.
  intros b. split; [vm_compute; reflexivity|].
  apply (Recover_max_offset (NewS3WAL "wal") b reliable).
Defined.

(** ** C7 *)

(** C7 (code divergence): [LastRecord] decodes only the last listed key and
    does not skip a malformed one.  With the record [(1, [x01])] stored at
    [wal/00000000000000000001] and an object at the malformed key [wal/zzz],
    which sorts last, [LastRecord] fails with the parse error for [wal/zzz]
    and keeps the cached length, while [Recover] skips that key and returns
    1, and [Read(1)] returns the record. *)
Theorem LastRecord_malformed_last_key :
  let b := <["wal/zzz" := []]> (snd (Append toy_hash (NewS3WAL "wal") ∅ reliable [x01])) in
  let w := set_length (NewS3WAL "wal") 1 in
  fst (fst (LastRecord toy_hash w b reliable)) = Error (ErrParseLastKey "wal/zzz") /\
  w_length (snd (fst (LastRecord toy_hash w b reliable))) = 1 /\
  fst (fst (Recover w b reliable)) = Ok 1 /\
  Read toy_hash w b reliable 1 = Ok (mkRecord 1 [x01]).
Proof. vm_compute. repeat split. Qed.

(** ** C2 *)

Lemma Read_same_prefix sha256 w1 w2 b net o :
  w_prefix w1 = w_prefix w2 -> Read sha256 w1 b net o = Read sha256 w2 b net o.
Proof. intros H. unfold Read. by rewrite H. Qed.

Lemma list_prefix_same_prefix w1 w2 :
  w_prefix w1 = w_prefix w2 -> list_prefix w1 = list_prefix w2.
Proof. intros H. unfold list_prefix. by rewrite H. Qed.

(** C2 (amended): a successful [Truncate(k)], [k] a uint64, sets the cached
    length to [k] and deletes exactly the stored keys under the prefix that
    decode to an offset greater than [k] (malformed keys are kept); then
    [Read(j)] fails with the missing-key error for every uint64 [j > k],
    [Read(j)] for [j <= k] returns what it returned before, and a
    [Recover] whose listing succeeds returns the greatest offset [m <= k]
    decoded from a key that was stored before, or 0 when there is none:
    [m] is [k] only when the key of [k] is stored or [k = 0]. *)
Theorem Truncate_then_Read_Recover (sha256 : list byte -> list byte)
    (w : S3WAL) (b : bucket) (net : Net) (k : N) (w' : S3WAL) (b' : bucket)
    (Hk : k < two64)
    (Htr : Truncate w b net k = (Ok tt, w', b')) :
  w_length w' = k /\ w_prefix w' = w_prefix w /\
  (forall key, b' !! key =
     if String.prefix (list_prefix w) key && past k key then None else b !! key) /\
  (forall j net', get_fails net' = false -> k < j -> j < two64 ->
     Read sha256 w' b' net' j =
       Error (ErrGetObject (getObjectKey (w_prefix w) j) NoSuchKey)) /\
  (forall j net', j <= k -> Read sha256 w' b' net' j = Read sha256 w b net' j) /\
  (forall net', pages_ok net' 0 (pages (list_keys b' (list_prefix w))) = true ->
     exists m, Recover w' b' net' = (Ok m, set_length w' m, b') /\ m <= k /\
       (forall key o, is_Some (b !! key) -> String.prefix (list_prefix w) key = true ->
          getOffsetFromKey key = Some o -> o <= k -> o <= m) /\
       (m = 0 \/ exists key, is_Some (b !! key) /\
          String.prefix (list_prefix w) key = true /\ getOffsetFromKey key = Some m)).
Proof.
  apply Truncate_lookup in Htr as (Hlen & Hpre & Hlook).
  split; [done|]. split; [done|]. split; [done|]. split; [|split].
  - intros j net' Hg Hj Hj2. unfold Read. rewrite Hg, Hpre, Hlook.
    rewrite prefix_getObjectKey. unfold past.
    rewrite getOffsetFromKey_getObjectKey by done.
    replace (k <? j) with true by (symmetry; apply N.ltb_lt; lia). done.
  - intros j net' Hj. unfold Read. rewrite Hpre, Hlook.
    unfold past. rewrite getOffsetFromKey_getObjectKey by lia.
    replace (k <? j) with false by (symmetry; apply N.ltb_ge; lia).
    by rewrite andb_false_r.
  - intros net' Hok. rewrite Recover_eq.
    rewrite (list_prefix_same_prefix w' w Hpre), Hok.
    eexists. split; [reflexivity|].
    destruct (recover_fold_attained (list_keys b' (list_prefix w)) 0)
      as [Hm|[key [Hin Ho]]];
      set (m := fold_left recover_obj (list_keys b' (list_prefix w)) 0) in *.
    + split; [lia|]. split; [|by left].
      intros key o Hb Hp Ho Hok'. eapply recover_fold_upper; [|exact Ho].
      apply elem_of_list_keys. rewrite Hlook, Hp. unfold past. rewrite Ho.
      replace (k <? o) with false by (symmetry; apply N.ltb_ge; lia). done.
    + apply elem_of_list_keys in Hin as [Hb' Hp].
      rewrite Hlook, Hp in Hb'. unfold past in Hb'. rewrite Ho in Hb'.
      destruct (k <? m) eqn:E; [by destruct Hb'|]. apply N.ltb_ge in E.
      split; [done|]. split.
      * intros key' o Hb Hp' Ho' Hok'. eapply recover_fold_upper; [|exact Ho'].
        apply elem_of_list_keys. rewrite Hlook, Hp'. unfold past. rewrite Ho'.
        replace (k <? o) with false by (symmetry; apply N.ltb_ge; lia). done.
      * right. exists key. done.
Qed.

Lemma Truncate_then_Read_Recover_witness :
  let w := NewS3WAL "wal" in
  let b := snd (append_all w ∅ ["a"; "b"; "c"]) in
  let '(r, w', b') := Truncate w b reliable 2 in
  r = Ok tt /\ 2 < two64 /\
  (w_length w' = 2 /\ w_prefix w' = w_prefix w /\
  (forall key, b' !! key =
     if String.prefix (list_prefix w) key && past 2 key then None else b !! key) /\
  (forall j net', get_fails net' = false -> 2 < j -> j < two64 ->
     Read toy_hash w' b' net' j =
       Error (ErrGetObject (getObjectKey (w_prefix w) j) NoSuchKey)) /\
  (forall j net', j <= 2 -> Read toy_hash w' b' net' j = Read toy_hash w b net' j) /\
  (forall net', pages_ok net' 0 (pages (list_keys b' (list_prefix w))) = true ->
     exists m, Recover w' b' net' = (Ok m, set_length w' m, b') /\ m <= 2 /\
       (forall key o, is_Some (b !! key) -> String.prefix (list_prefix w) key = true ->
          getOffsetFromKey key = Some o -> o <= 2 -> o <= m) /\
       (m = 0 \/ exists key, is_Some (b !! key) /\
          String.prefix (list_prefix w) key = true /\ getOffsetFromKey key = Some m))).
Proof.
  intros w b.
  destruct (Truncate w b reliable 2) as [[r w'] b'] eqn:E.
  assert (Hr : r = Ok tt).
  { assert (H := f_equal (fun t => fst (fst t)) E). vm_compute in H. by rewrite <- H. }
  subst r. split; [reflexivity|]. split; [vm_compute; reflexivity|].
  apply (Truncate_then_Read_Recover toy_hash w b reliable 2 w' b'); [vm_compute; reflexivity|exact E].
Defined.

(** C2 counterexample: on an empty store [Truncate(3)] succeeds and sets
    the cached length to 3, but [Recover] then returns 0, not 3. *)
Lemma Truncate_then_Recover_not_k :
  let '(r, w1, b1) := Truncate (NewS3WAL "wal") ∅ reliable 3 in
  r = Ok tt /\ w_length w1 = 3 /\ fst (fst (Recover w1 b1 reliable)) = Ok 0.
Proof. vm_compute. repeat split. Qed.

(** ** C8 *)

Lemma wal_inv_keys w b i :
  wal_inv w b -> 1 <= i <= w_length w ->
  getObjectKey (w_prefix w) i ∈ list_keys b (list_prefix w).
Proof.
  intros [_ Hinv] Hi. apply elem_of_list_keys.
  split; [apply Hinv; by exists i|apply prefix_getObjectKey].
Qed.

Lemma wal_inv_listed w b key :
  wal_inv w b -> key ∈ list_keys b (list_prefix w) ->
  exists i, 1 <= i <= w_length w /\ key = getObjectKey (w_prefix w) i /\
            getOffsetFromKey key = Some i.
Proof.
  intros [Hlt Hinv] Hk. apply elem_of_list_keys in Hk as [Hb _].
  apply Hinv in Hb as (i & Hi & ->). exists i.
  split; [done|split; [done|]]. apply getOffsetFromKey_getObjectKey. lia.
Qed.

Lemma wal_inv_same_length w b n :
  wal_inv w b -> n = w_length w -> wal_inv (set_length w n) b.
Proof. intros Hinv ->. by destruct w. Qed.

Lemma wal_inv_append sha256 w b net data r w' b' :
  wal_inv w b -> w_length w < maxUint64 ->
  Append sha256 w b net data = (r, w', b') -> wal_inv w' b'.
Proof.
  intros [Hlt Hinv] Hmax H. unfold Append in H.
  destruct (prepareBody sha256 _ data) as [body|];
    [|injection H as _ <- <-; by split].
  destruct (put_fails net); [injection H as _ <- <-; by split|].
  injection H as _ <- <-.
  assert (Hn : add64 (w_length w) 1 = w_length w + 1).
  { unfold add64. apply N.mod_small. unfold maxUint64 in Hmax. lia. }
  rewrite Hn. split; [cbn; unfold maxUint64 in Hmax; lia|].
  intros key. cbn [w_length w_prefix set_length]. rewrite lookup_insert_is_Some.
  split.
  - intros [<-|[_ Hb]]; [exists (w_length w + 1); split; [lia|done]|].
    apply Hinv in Hb as (i & Hi & ->). exists i. split; [lia|done].
  - intros (i & Hi & ->).
    destruct (decide (i = w_length w + 1)) as [->|Hne]; [by left|].
    destruct (decide (getObjectKey (w_prefix w) (w_length w + 1) =
                      getObjectKey (w_prefix w) i)) as [E|E]; [by left|].
    right. split; [done|]. apply Hinv. exists i. split; [lia|done].
Qed.

Lemma wal_inv_lastrecord sha256 w b net r w' b' :
  wal_inv w b -> LastRecord sha256 w b net = (r, w', b') -> wal_inv w' b'.
Proof.
  intros Hinv H. rewrite LastRecord_eq in H.
  destruct (pages_ok _ _ _); [|injection H as _ <- <-; done].
  destruct (last (list_keys b (list_prefix w))) as [k|] eqn:El.
  - destruct (getOffsetFromKey k) as [off|] eqn:Ek; [|injection H as _ <- <-; done].
    injection H as _ <- <-. apply wal_inv_same_length; [done|].
    apply last_Some_elem_of in El as Hk.
    apply (wal_inv_listed w b) in Hk as (i & Hi & -> & Hoff); [|done].
    rewrite Hoff in Ek. injection Ek as <-.
    destruct Hinv as [Hlt Hinv'].
    destruct (StronglySorted_last String.le _ _ (getObjectKey (w_prefix w) (w_length w))
                (list_keys_sorted b (list_prefix w)) El) as [E|E].
    + apply wal_inv_keys; [by split|lia].
    + apply (f_equal getOffsetFromKey) in E.
      rewrite !getOffsetFromKey_getObjectKey in E by lia. congruence.
    + unfold String.le, String.leb in E.
      rewrite compare_getObjectKey in E by lia.
      destruct (N.compare_spec (w_length w) i); try done; lia.
  - injection H as _ <- <-. apply wal_inv_same_length; [done|].
    destruct (decide (w_length w = 0)) as [?|Hne]; [done|exfalso].
    apply last_None in El.
    pose proof (wal_inv_keys w b 1 Hinv) as Hk. rewrite El in Hk.
    apply not_elem_of_nil in Hk; [done|lia].
Qed.

Lemma wal_inv_recover w b net r w' b' :
  wal_inv w b -> Recover w b net = (r, w', b') -> wal_inv w' b'.
Proof.
  intros Hinv H. rewrite Recover_eq in H.
  destruct (pages_ok _ _ _); [|injection H as _ <- <-; done].
  injection H as _ <- <-. apply wal_inv_same_length; [done|].
  set (m := fold_left recover_obj (list_keys b (list_prefix w)) 0).
  assert (Hge : w_length w = 0 \/ w_length w <= m).
  { destruct (decide (w_length w = 0)) as [|Hne]; [by left|right].
    eapply recover_fold_upper; [apply (wal_inv_keys w b (w_length w)); [done|lia]|].
    destruct Hinv as [Hlt _]. apply getOffsetFromKey_getObjectKey. lia. }
  destruct (recover_fold_attained (list_keys b (list_prefix w)) 0)
    as [Hm|[k [Hk Ho]]]; [fold m in Hm; lia|fold m in Ho].
  apply (wal_inv_listed w b) in Hk as (i & Hi & -> & Hoff); [|done].
  rewrite Hoff in Ho. injection Ho as Ho. lia.
Qed.

Lemma wal_inv_truncate w b net k w' b' :
  wal_inv w b -> k <= w_length w ->
  Truncate w b net k = (Ok tt, w', b') -> wal_inv w' b'.
Proof.
  intros [Hlt Hinv] Hk H. apply Truncate_lookup in H as (Hlen & Hpre & Hlook).
  split; [lia|]. intros key. rewrite Hlook, Hlen, Hpre. split.
  - destruct (String.prefix _ key && past k key) eqn:E; [by intros []|].
    intros Hb. apply Hinv in Hb as (i & Hi & ->). exists i. split; [|done].
    rewrite prefix_getObjectKey in E. unfold past in E.
    rewrite getOffsetFromKey_getObjectKey in E by lia.
    apply N.ltb_ge in E. lia.
  - intros (i & Hi & ->). rewrite prefix_getObjectKey. unfold past.
    rewrite getOffsetFromKey_getObjectKey by lia.
    replace (k <? i) with false by (symmetry; apply N.ltb_ge; lia).
    apply Hinv. exists i. split; [lia|done].
Qed.

Lemma wal_inv_step sha256 s s' :
  wal_step sha256 s s' -> wal_inv s.1 s.2 -> wal_inv s'.1 s'.2.
Proof.
  intros Hs. destruct Hs; cbn.
  - intros Hi. by eapply wal_inv_append.
  - done.
  - intros Hi. by eapply wal_inv_lastrecord.
  - intros Hi. by eapply wal_inv_recover.
  - intros Hi. by eapply wal_inv_truncate.
Qed.

Lemma wal_inv_reachable sha256 prefix w b :
  rtc (wal_step sha256) (NewS3WAL prefix, ∅) (w, b) -> wal_inv w b.
Proof.
  intros Hr. change (wal_inv (w, b).1 (w, b).2).
  remember (NewS3WAL prefix, ∅ : bucket) as s0 eqn:E.
  assert (H0 : wal_inv s0.1 s0.2).
  { subst s0. split; [reflexivity|]. intros key. cbn. rewrite lookup_empty.
    split; [by intros []|intros (i & Hi & _); lia]. }
  clear E. induction Hr as [s|s1 s2 s3 Hs Hr IH]; [done|].
  apply IH. by apply (wal_inv_step sha256 s1 s2).
Qed.

(** C8 (amended): in every state reached from a fresh handle and an empty
    store by single-writer steps ([Append] issued below cached length
    [2^64-1]; [Read], [LastRecord] and [Recover] under any faults;
    [Truncate(k)] with [k] at most the cached length and succeeding), the
    stored keys are exactly the keys of offsets [1 .. cached length], and the
    next successful [Append] is assigned offset [cached length + 1] and keeps
    the stored offsets contiguous from 1. *)
Theorem reachable_contiguous (sha256 : list byte -> list byte) (prefix : string)
    (w : S3WAL) (b : bucket)
    (Hreach : rtc (wal_step sha256) (NewS3WAL prefix, ∅) (w, b)) :
  (forall key, is_Some (b !! key) <->
     exists i, 1 <= i <= w_length w /\ key = getObjectKey (w_prefix w) i) /\
  (forall net data o w' b', w_length w < maxUint64 ->
     Append sha256 w b net data = (Ok o, w', b') ->
     o = w_length w + 1 /\
     forall key, is_Some (b' !! key) <->
       exists i, 1 <= i <= o /\ key = getObjectKey (w_prefix w') i).
Proof.
  apply wal_inv_reachable in Hreach as Hinv.
  split; [apply Hinv|]. intros net data o w' b' Hmax Happ.
  pose proof (wal_inv_append _ _ _ _ _ _ _ _ Hinv Hmax Happ) as [_ Hinv'].
  unfold Append in Happ.
  destruct (prepareBody sha256 _ data); [|discriminate].
  destruct (put_fails net); [discriminate|]. injection Happ as <- <- <-.
  assert (Hn : add64 (w_length w) 1 = w_length w + 1).
  { unfold add64. apply N.mod_small. unfold maxUint64 in Hmax. lia. }
  rewrite Hn in Hinv' |- *. split; [done|]. exact Hinv'.
Qed.

Lemma reachable_contiguous_witness :
  let '(_, w1, b1) := Append toy_hash (NewS3WAL "wal") ∅ reliable [x01] in
  rtc (wal_step toy_hash) (NewS3WAL "wal", ∅) (w1, b1) /\
  ((forall key, is_Some (b1 !! key) <->
     exists i, 1 <= i <= w_length w1 /\ key = getObjectKey (w_prefix w1) i) /\
   (forall net data o w' b', w_length w1 < maxUint64 ->
     Append toy_hash w1 b1 net data = (Ok o, w', b') ->
     o = w_length w1 + 1 /\
     forall key, is_Some (b' !! key) <->
       exists i, 1 <= i <= o /\ key = getObjectKey (w_prefix w') i)).
Proof.
  destruct (Append toy_hash (NewS3WAL "wal") ∅ reliable [x01]) as [[r w1] b1] eqn:E.
  assert (Hs : rtc (wal_step toy_hash) (NewS3WAL "wal", ∅) (w1, b1)).
  { eapply rtc_l; [|apply rtc_refl].
    apply (step_append toy_hash _ _ reliable [x01] r); [vm_compute; reflexivity|exact E]. }
  split; [exact Hs|]. exact (reachable_contiguous toy_hash "wal" w1 b1 Hs).
Defined.

(** C8 counterexample: [Truncate(5)] on an empty store sets the cached
    length to 5; the next [Append] gets offset 6 and the store then holds
    offset 6 but not offset 1. *)
Lemma Truncate_leaves_gap :
  let '(_, w1, b1) := Truncate (NewS3WAL "wal") ∅ reliable 5 in
  let '(r, _, b2) := Append toy_hash w1 b1 reliable [x01] in
  r = Ok 6 /\ b2 !! getObjectKey "wal" 1 = None /\
  is_Some (b2 !! getObjectKey "wal" 6).
Proof. vm_compute. split; [reflexivity|split; [reflexivity|eexists; reflexivity]]. Qed.

(** * Further properties of the package *)

(** ** Framing and [Read] *)

Lemma put_be_be_uint64 (l : list byte) :
  put_be (length l) (be_uint64 l) = l.
Proof.
  induction l as [|x l IH] using rev_ind; [done|].
  rewrite length_app, Nat.add_1_r. cbn [put_be].
  unfold be_uint64 in *. rewrite fold_left_app. cbn [fold_left].
  set (v := fold_left (fun acc y => acc * 256 + Byte.to_N y) l 0) in *.
  pose proof (Byte.to_N_bounded x) as Hx.
  replace (N.shiftr (v * 256 + Byte.to_N x) 8) with v.
  2:{ rewrite N.shiftr_div_pow2. change (2 ^ 8) with 256.
      rewrite N.div_add_l by lia. rewrite N.div_small by lia. lia. }
  replace (N.land (v * 256 + Byte.to_N x) 255) with (Byte.to_N x).
  2:{ replace 255 with (N.ones 8) by reflexivity. rewrite N.land_ones.
      change (2 ^ 8) with 256. rewrite N.Div0.add_mod, N.Div0.mod_mul, N.add_0_l.
      rewrite (N.mod_small (Byte.to_N x)) by lia. rewrite N.mod_small by lia. done. }
  rewrite IH. unfold byte_of_N. by rewrite Byte.of_to_N.
Qed.

Lemma be_uint64_bound (l : list byte) : be_uint64 l < 256 ^ N.of_nat (length l).
Proof.
  pose proof (be_uint64_put_be (length l) (be_uint64 l)) as H.
  rewrite put_be_be_uint64 in H. rewrite H.
  apply N.mod_lt. apply N.pow_nonzero. lia.
Qed.

Section Decoding.

Variable sha256 : list byte -> list byte.

Lemma validateChecksum_true (full : list byte) :
  validateChecksum sha256 full = true ->
  full = take (length full - 32) full ++ sha256 (take (length full - 32) full).
Proof.
  unfold validateChecksum. destruct (Nat.ltb _ _); [discriminate|].
  intros H. apply bool_decide_eq_true in H. rewrite H. by rewrite take_drop.
Qed.

Lemma decode_body_sound key j data r :
  decode_body sha256 key j data = Ok r ->
  Offset r = j /\
  data = (put_uint64 j ++ Data r) ++ sha256 (put_uint64 j ++ Data r).
Proof.
  unfold decode_body.
  destruct (Nat.ltb (length data) (8 + 32)) eqn:Hl; [discriminate|].
  apply Nat.ltb_ge in Hl.
  destruct (N.eqb_spec (be_uint64 (take 8 data)) j) as [Hj|]; [|discriminate].
  cbn [negb].
  destruct (validateChecksum sha256 data) eqn:Hc; [|discriminate].
  intros H. injection H as <-. cbn [Offset Data]. split; [done|].
  assert (H8 : put_uint64 j = take 8 data).
  { rewrite <- Hj. unfold put_uint64.
    replace 8%nat with (length (take 8 data)) at 1
      by (rewrite length_take; lia).
    apply put_be_be_uint64. }
  rewrite H8, take_take_drop.
  replace (8 + (length data - 8 - 32))%nat with (length data - 32)%nat by lia.
  by apply validateChecksum_true.
Qed.

Hypothesis sha256_size : forall l, length (sha256 l) = 32%nat.

Lemma validateChecksum_frame (p : list byte) :
  validateChecksum sha256 (p ++ sha256 p) = true.
Proof.
  unfold validateChecksum. rewrite length_app, sha256_size.
  replace (Nat.ltb (length p + 32) 32) with false
    by (symmetry; apply Nat.ltb_ge; lia).
  replace (length p + 32 - 32)%nat with (length p) by lia.
  rewrite take_app_length, drop_app_length. by apply bool_decide_eq_true.
Qed.

End Decoding.

(** X1: with a 32-byte hash, [validateChecksum] accepts a byte string
    exactly when it is some [p] followed by the hash of [p]. *)
Theorem validateChecksum_iff (sha256 : list byte -> list byte)
    (sha256_size : forall l, length (sha256 l) = 32%nat) (full : list byte) :
  validateChecksum sha256 full = true <-> exists p, full = p ++ sha256 p.
Proof.
  split.
  - intros H. eexists. by apply validateChecksum_true.
  - intros [p ->]. by apply validateChecksum_frame.
Qed.

Lemma validateChecksum_iff_witness :
  validateChecksum toy_hash (repeat x00 32) = true <->
  exists p, repeat x00 32 = p ++ toy_hash p.
Proof. apply (validateChecksum_iff toy_hash (fun l => eq_refl)). Defined.

(** X2: the 8-byte big-endian coding of [uint64] is a bijection: decoding
    the encoding of [v < 2^64] gives [v], and encoding the decoding of any
    8 bytes gives them back. *)
Theorem be_uint64_bijection (v : N) (l : list byte)
    (Hv : v < two64) (Hl : length l = 8%nat) :
  be_uint64 (put_uint64 v) = v /\ put_uint64 (be_uint64 l) = l /\
  be_uint64 l < two64.
Proof.
  split; [by apply be_uint64_put_uint64|]. split.
  - unfold put_uint64. rewrite <- Hl at 1. apply put_be_be_uint64.
  - pose proof (be_uint64_bound l) as H. rewrite Hl in H. exact H.
Qed.

Lemma be_uint64_bijection_witness :
  (5 < two64 /\ length [x00; x00; x00; x00; x00; x00; x01; x02] = 8%nat) /\
  (be_uint64 (put_uint64 5) = 5 /\
   put_uint64 (be_uint64 [x00; x00; x00; x00; x00; x00; x01; x02]) =
     [x00; x00; x00; x00; x00; x00; x01; x02] /\
   be_uint64 [x00; x00; x00; x00; x00; x00; x01; x02] < two64).
Proof.
  split; [split; [vm_compute; reflexivity|reflexivity]|].
  apply be_uint64_bijection; [vm_compute; reflexivity|reflexivity].
Defined.

(** X3: [Read(j)] returns a record only for an object that is exactly the
    frame of [j]: when it returns [r], the offset of [r] is [j] and the
    object at the key of [j] is [j] in big-endian, the data of [r], and the
    hash of those two. *)
Theorem Read_sound (sha256 : list byte -> list byte)
    (w : S3WAL) (b : bucket) (net : Net) (j : N) (r : record)
    (H : Read sha256 w b net j = Ok r) :
  Offset r = j /\
  b !! getObjectKey (w_prefix w) j =
    Some ((put_uint64 j ++ Data r) ++ sha256 (put_uint64 j ++ Data r)).
Proof.
  unfold Read in H. destruct (get_fails net); [discriminate|].
  destruct (b !! getObjectKey (w_prefix w) j) as [data|]; [|discriminate].
  apply decode_body_sound in H as [Ho Hd]. split; [done|]. by rewrite <- Hd.
Qed.

Lemma Read_sound_witness :
  let '(_, w1, b1) := Append toy_hash (NewS3WAL "wal") ∅ reliable [x07] in
  Read toy_hash w1 b1 reliable 1 = Ok (mkRecord 1 [x07]) /\
  (Offset (mkRecord 1 [x07]) = 1 /\
   b1 !! getObjectKey (w_prefix w1) 1 =
     Some ((put_uint64 1 ++ Data (mkRecord 1 [x07])) ++
           toy_hash (put_uint64 1 ++ Data (mkRecord 1 [x07])))).
Proof.
  destruct (Append toy_hash (NewS3WAL "wal") ∅ reliable [x07]) as [[r w1] b1] eqn:E.
  assert (HR : Read toy_hash w1 b1 reliable 1 = Ok (mkRecord 1 [x07])).
  { assert (H1 := f_equal (fun t => snd (fst t)) E).
    assert (H2 := f_equal snd E). cbn in H1, H2. subst w1 b1.
    vm_compute. reflexivity. }
  split; [exact HR|]. exact (Read_sound toy_hash w1 b1 reliable 1 _ HR).
Defined.

(** X4: a well-formed record stored under the key of another offset is
    rejected: if the object at the key of [j] is the frame of [i <> j],
    [Read(j)] fails with the offset-mismatch error reporting [j] and [i]. *)
Theorem Read_misplaced (sha256 : list byte -> list byte)
    (sha256_size : forall l, length (sha256 l) = 32%nat)
    (w : S3WAL) (b : bucket) (net : Net) (i j : N) (d : list byte)
    (Hget : get_fails net = false) (Hi : i < two64) (Hij : i <> j)
    (Hb : b !! getObjectKey (w_prefix w) j =
          Some ((put_uint64 i ++ d) ++ sha256 (put_uint64 i ++ d))) :
  Read sha256 w b net j = Error (ErrOffsetMismatch (getObjectKey (w_prefix w) j) j i).
Proof.
  unfold Read. rewrite Hget, Hb. unfold decode_body.
  rewrite !length_app, sha256_size, length_put_uint64.
  replace (Nat.ltb (8 + length d + 32) (8 + 32)) with false
    by (symmetry; apply Nat.ltb_ge; lia).
  rewrite <- !app_assoc, take_app_le by (rewrite length_put_uint64; lia).
  rewrite take_ge by (rewrite length_put_uint64; lia).
  rewrite be_uint64_put_uint64 by done.
  destruct (N.eqb_spec i j); [done|]. reflexivity.
Qed.

Lemma Read_misplaced_witness :
  (get_fails reliable = false /\ 2 < two64 /\ 2 <> 1 /\
   (<[getObjectKey "wal" 1 := (put_uint64 2 ++ [x07]) ++ toy_hash (put_uint64 2 ++ [x07])]> ∅
      : bucket) !! getObjectKey (w_prefix (NewS3WAL "wal")) 1 =
     Some ((put_uint64 2 ++ [x07]) ++ toy_hash (put_uint64 2 ++ [x07]))) /\
  Read toy_hash (NewS3WAL "wal")
    (<[getObjectKey "wal" 1 := (put_uint64 2 ++ [x07]) ++ toy_hash (put_uint64 2 ++ [x07])]> ∅)
    reliable 1 =
  Error (ErrOffsetMismatch (getObjectKey (w_prefix (NewS3WAL "wal")) 1) 1 2).
Proof.
  split; [split; [reflexivity|split; [vm_compute; reflexivity|split; [discriminate|vm_compute; reflexivity]]]|].
  apply (Read_misplaced toy_hash (fun l => eq_refl) (NewS3WAL "wal") _ reliable 2 1 [x07]); [reflexivity|vm_compute; reflexivity|discriminate|].
  vm_compute. reflexivity.
Defined.

(** ** Key decoding *)

Lemma getOffsetFromKey_suffix (p s : string) :
  "/"%char ∉ list_ascii_of_string s ->
  getOffsetFromKey (String.append p (String.append "/" s)) =
  ParseUint (list_ascii_of_string s).
Proof.
  intros Hs. destruct (list_ascii_of_string s) as [|c ds] eqn:Es.
  - unfold getOffsetFromKey, LastIndexByte. cbv zeta.
    rewrite !list_ascii_of_string_append, Es. cbn [list_ascii_of_string app].
    rewrite last_index_from_app. cbn [last_index_from].
    destruct (ascii_dec "/" "/") as [_|]; [|done].
    rewrite length_app. cbn [length].
    replace ((0 + Z.of_nat (length (list_ascii_of_string p)) =?
              Z.of_nat (length (list_ascii_of_string p) + 1) - 1)%Z) with true
      by (symmetry; apply Z.eqb_eq; lia).
    destruct (Z.ltb _ _); reflexivity.
  - apply getOffsetFromKey_split with (lp := list_ascii_of_string p).
    + rewrite !list_ascii_of_string_append, Es. done.
    + done.
    + done.
Qed.

Lemma getOffsetFromKey_no_slash (key : string) :
  "/"%char ∉ list_ascii_of_string key -> getOffsetFromKey key = None.
Proof.
  intros Hk. unfold getOffsetFromKey, LastIndexByte.
  rewrite last_index_from_absent by done. done.
Qed.

Definition is_digit (c : ascii) : Prop := 48 <= N_of_ascii c <= 57.

Lemma parse_digits_sound l n m :
  parse_digits l n = Some m ->
  Forall is_digit l /\ (l = [] /\ m = n \/ m <= maxUint64).
Proof.
  revert n. induction l as [|c l IH]; intros n H.
  - injection H as <-. split; [constructor|by left].
  - simpl in H. unfold digit_val in H.
    destruct ((48 <=? N_of_ascii c) && (N_of_ascii c <=? 57)) eqn:Ed; [|discriminate].
    apply andb_prop in Ed as [E1 E2]. apply N.leb_le in E1, E2.
    destruct (cutoff <=? n); [discriminate|].
    destruct (maxUint64 <? n * 10 + (N_of_ascii c - 48)) eqn:Em; [discriminate|].
    apply N.ltb_ge in Em.
    destruct (IH _ H) as [Hd [[-> ->]|Hm]].
    + split; [constructor; [split; lia|constructor]|by right].
    + split; [constructor; [split; lia|done]|by right].
Qed.

(** X5: [getOffsetFromKey] reads only the text after the last slash: for
    any [p] and any [s] without a slash, the key [p/s] decodes as
    [strconv.ParseUint(s, 10, 64)] (an error for an empty [s]); a key
    without any slash is rejected. *)
Theorem getOffsetFromKey_after_last_slash (p s key : string)
    (Hs : "/"%char ∉ list_ascii_of_string s)
    (Hkey : "/"%char ∉ list_ascii_of_string key) :
  getOffsetFromKey (String.append p (String.append "/" s)) =
    ParseUint (list_ascii_of_string s) /\
  getOffsetFromKey key = None.
Proof.
  split; [by apply getOffsetFromKey_suffix|by apply getOffsetFromKey_no_slash].
Qed.

Lemma getOffsetFromKey_after_last_slash_witness :
  (("/"%char ∉ list_ascii_of_string "42") /\ ("/"%char ∉ list_ascii_of_string "wal")) /\
  (getOffsetFromKey (String.append "a/b" (String.append "/" "42")) =
     ParseUint (list_ascii_of_string "42") /\
   getOffsetFromKey "wal" = None).
Proof.
  assert (H1 : "/"%char ∉ list_ascii_of_string "42") by (cbn; set_solver).
  assert (H2 : "/"%char ∉ list_ascii_of_string "wal") by (cbn; set_solver).
  split; [by split|]. exact (getOffsetFromKey_after_last_slash "a/b" "42" "wal" H1 H2).
Defined.

(** X6: an offset decoded from a key [p/s] ([s] without a slash) is at most
    [2^64-1] and comes from a non-empty all-decimal-digit [s]; a leading
    zero is ignored, so [p/7], [p/07] and the padded key of 7 all decode
    to 7. *)
Theorem getOffsetFromKey_digits (p s : string) (n : N)
    (Hs : "/"%char ∉ list_ascii_of_string s) :
  (getOffsetFromKey (String.append p (String.append "/" s)) = Some n ->
   list_ascii_of_string s <> [] /\ Forall is_digit (list_ascii_of_string s) /\
   n <= maxUint64) /\
  (list_ascii_of_string s <> [] ->
   getOffsetFromKey (String.append p (String.append "/" (String "0" s))) =
   getOffsetFromKey (String.append p (String.append "/" s))).
Proof.
  split.
  - rewrite getOffsetFromKey_suffix by done. unfold ParseUint.
    destruct (list_ascii_of_string s) as [|c l] eqn:E; [discriminate|].
    intros H. apply parse_digits_sound in H as [Hd [[? _]|Hm]]; [discriminate|].
    done.
  - intros Hne. rewrite !getOffsetFromKey_suffix; [|done|].
    + cbn [list_ascii_of_string]. unfold ParseUint.
      destruct (list_ascii_of_string s) as [|c l]; [done|]. reflexivity.
    + cbn [list_ascii_of_string]. rewrite elem_of_cons. intros [H|H]; [discriminate|done].
Qed.

Lemma getOffsetFromKey_digits_witness :
  ("/"%char ∉ list_ascii_of_string "7") /\
  ((getOffsetFromKey (String.append "wal" (String.append "/" "7")) = Some 7 ->
    list_ascii_of_string "7" <> [] /\ Forall is_digit (list_ascii_of_string "7") /\
    7 <= maxUint64) /\
   (list_ascii_of_string "7" <> [] ->
    getOffsetFromKey (String.append "wal" (String.append "/" (String "0" "7"))) =
    getOffsetFromKey (String.append "wal" (String.append "/" "7")))).
Proof.
  assert (H : "/"%char ∉ list_ascii_of_string "7") by (cbn; set_solver).
  split; [exact H|]. exact (getOffsetFromKey_digits "wal" "7" 7 H).
Defined.

(** ** Prefix normalisation *)

Lemma trim_left_slash_app l r :
  trim_left_slash (l ++ r) =
  match trim_left_slash l with [] => trim_left_slash r | t => t ++ r end.
Proof.
  induction l as [|c l IH]; [done|]. cbn [app trim_left_slash].
  destruct (ascii_dec c "/"); [done|]. done.
Qed.

Lemma trim_left_slash_head l : head (trim_left_slash l) <> Some "/"%char.
Proof.
  induction l as [|c l IH]; [discriminate|]. cbn [trim_left_slash].
  destruct (ascii_dec c "/") as [|Hc]; [done|]. cbn. congruence.
Qed.

Lemma trim_left_slash_suffix l : exists pre, l = pre ++ trim_left_slash l.
Proof.
  induction l as [|c l [pre IH]]; [by exists []|]. cbn [trim_left_slash].
  destruct (ascii_dec c "/"); [exists (c :: pre); cbn; by f_equal|by exists []].
Qed.

Lemma trim_left_slash_id l : head l <> Some "/"%char -> trim_left_slash l = l.
Proof.
  destruct l as [|c l]; [done|]. cbn. intros H.
  destruct (ascii_dec c "/") as [->|]; [done|done].
Qed.

Lemma last_rev_head {A} (l : list A) : last (rev l) = head l.
Proof. destruct l as [|x l]; [done|]. cbn. by rewrite last_app. Qed.

Lemma head_rev_last {A} (l : list A) : head (rev l) = last l.
Proof. rewrite <- (rev_involutive l) at 2. by rewrite last_rev_head. Qed.

(** X7: [NewS3WAL] ignores slashes at either end of the prefix: the
    handles for [p], ["/" ++ p] and [p ++ "/"] are equal, so they use the
    same keys; a new handle has cached length 0. *)
Theorem NewS3WAL_slashes (p : string) :
  NewS3WAL (String.append "/" p) = NewS3WAL p /\
  NewS3WAL (String.append p "/") = NewS3WAL p /\
  w_length (NewS3WAL p) = 0.
Proof.
  split; [|split; [|done]].
  - unfold NewS3WAL. cbn [list_ascii_of_string String.append trim_left_slash].
    destruct (ascii_dec "/" "/"); [done|congruence].
  - unfold NewS3WAL. rewrite list_ascii_of_string_append.
    cbn [list_ascii_of_string]. rewrite trim_left_slash_app.
    destruct (trim_left_slash (list_ascii_of_string p)) as [|c t] eqn:E.
    + cbn. destruct (ascii_dec "/" "/"); [done|congruence].
    + rewrite rev_app_distr. cbn [rev app trim_left_slash].
      destruct (ascii_dec "/" "/"); [done|congruence].
Qed.

(** X8: the prefix a handle stores neither starts nor ends with a slash,
    so building a handle from it again gives the same handle. *)
Theorem NewS3WAL_prefix_trimmed (p : string) :
  head (list_ascii_of_string (w_prefix (NewS3WAL p))) <> Some "/"%char /\
  last (list_ascii_of_string (w_prefix (NewS3WAL p))) <> Some "/"%char /\
  NewS3WAL (w_prefix (NewS3WAL p)) = NewS3WAL p.
Proof.
  unfold NewS3WAL. cbn [w_prefix]. rewrite !list_ascii_of_string_of_list_ascii.
  set (u := trim_left_slash (list_ascii_of_string p)).
  set (t := trim_left_slash (rev u)).
  assert (Hlast : last t <> Some "/"%char).
  { destruct (trim_left_slash_suffix (rev u)) as [pre Hpre]. fold t in Hpre.
    destruct t as [|c t'] eqn:Et; [discriminate|].
    assert (Hl : last (rev u) = last (c :: t')) by (rewrite Hpre, last_app_cons; done).
    rewrite <- Hl, last_rev_head. apply trim_left_slash_head. }
  assert (Hhead : head (rev t) <> Some "/"%char) by (rewrite head_rev_last; done).
  assert (Hlast' : last (rev t) <> Some "/"%char)
    by (rewrite last_rev_head; apply trim_left_slash_head).
  split; [done|split; [done|]].
  rewrite (trim_left_slash_id (rev t)) by done.
  rewrite rev_involutive. rewrite (trim_left_slash_id t).
  - done.
  - rewrite <- (rev_involutive t), head_rev_last. done.
Qed.

(** ** Recovery and appends *)

Lemma Recover_Ok w b net m w1 b1 :
  Recover w b net = (Ok m, w1, b1) ->
  w1 = set_length w m /\ b1 = b /\
  m = fold_left recover_obj (list_keys b (list_prefix w)) 0.
Proof.
  rewrite Recover_eq. destruct (pages_ok _ _ _); [|discriminate].
  intros H. by injection H as <- <- <-.
Qed.

(** X9: after a successful [Recover] returning [m < 2^64-1], a successful
    [Append] returns [m + 1], which is above the offset of every stored key
    under the prefix that decodes, writes a key that held no object, and
    leaves every other key as it was: it never overwrites a record. *)
Theorem Recover_then_Append (sha256 : list byte -> list byte)
    (w : S3WAL) (b : bucket) (net net' : Net) (m : N) (w1 : S3WAL) (b1 : bucket)
    (data : list byte) (o : N) (w2 : S3WAL) (b2 : bucket)
    (Hrec : Recover w b net = (Ok m, w1, b1)) (Hm : m < maxUint64)
    (Happ : Append sha256 w1 b1 net' data = (Ok o, w2, b2)) :
  o = m + 1 /\ b !! getObjectKey (w_prefix w) o = None /\
  (forall key o', is_Some (b !! key) -> String.prefix (list_prefix w) key = true ->
     getOffsetFromKey key = Some o' -> o' < o) /\
  (forall key, key <> getObjectKey (w_prefix w) o -> b2 !! key = b !! key).
Proof.
  apply Recover_Ok in Hrec as (-> & -> & Hmf).
  unfold Append in Happ. destruct (prepareBody sha256 _ data); [|discriminate].
  destruct (put_fails net'); [discriminate|]. injection Happ as <- <- <-.
  cbn [w_length w_prefix set_length].
  assert (Hn : add64 m 1 = m + 1).
  { unfold add64. apply N.mod_small. unfold maxUint64 in Hm. lia. }
  rewrite Hn.
  assert (Hup : forall key o', is_Some (b !! key) ->
            String.prefix (list_prefix w) key = true ->
            getOffsetFromKey key = Some o' -> o' <= m).
  { intros key o' Hb Hp Ho. rewrite Hmf. eapply recover_fold_upper; [|exact Ho].
    by apply elem_of_list_keys. }
  split; [done|]. split; [|split].
  - destruct (b !! getObjectKey (w_prefix w) (m + 1)) eqn:E; [|done]. exfalso.
    assert (m + 1 <= m); [|lia].
    apply (Hup (getObjectKey (w_prefix w) (m + 1))).
    + by rewrite E.
    + apply prefix_getObjectKey.
    + apply getOffsetFromKey_getObjectKey. unfold maxUint64 in Hm. lia.
  - intros key o' Hb Hp Ho. pose proof (Hup key o' Hb Hp Ho). lia.
  - intros key Hk. by rewrite lookup_insert_ne by done.
Qed.

Lemma Recover_then_Append_witness :
  let b := snd (append_all (NewS3WAL "wal") ∅ ["a"; "b"]) in
  let '(rr, w1, b1) := Recover (NewS3WAL "wal") b reliable in
  let '(ra, w2, b2) := Append toy_hash w1 b1 reliable [x09] in
  rr = Ok 2 /\ ra = Ok 3 /\
  (2 < maxUint64 /\
   (3 = 2 + 1 /\ b !! getObjectKey (w_prefix (NewS3WAL "wal")) 3 = None /\
    (forall key o', is_Some (b !! key) ->
       String.prefix (list_prefix (NewS3WAL "wal")) key = true ->
       getOffsetFromKey key = Some o' -> o' < 3) /\
    (forall key, key <> getObjectKey (w_prefix (NewS3WAL "wal")) 3 -> b2 !! key = b !! key))).
Proof.
  intros b.
  destruct (Recover (NewS3WAL "wal") b reliable) as [[rr w1] b1] eqn:E1.
  assert (Hr : rr = Ok 2).
  { assert (H := f_equal (fun t => fst (fst t)) E1). vm_compute in H. by rewrite <- H. }
  subst rr.
  destruct (Append toy_hash w1 b1 reliable [x09]) as [[ra w2] b2] eqn:E2.
  assert (Ha : ra = Ok 3).
  { apply Recover_Ok in E1 as (-> & -> & _).
    assert (H := f_equal (fun t => fst (fst t)) E2). vm_compute in H. by rewrite <- H. }
  subst ra. split; [done|split; [done|]].
  split; [vm_compute; reflexivity|].
  exact (Recover_then_Append toy_hash (NewS3WAL "wal") b reliable reliable 2 w1 b1
           [x09] 3 w2 b2 E1 (ltac:(vm_compute; reflexivity)) E2).
Defined.

(** Every stored key under the prefix is the padded key of a [uint64]. *)
Definition well_formed (w : S3WAL) (b : bucket) : Prop :=
  forall key, is_Some (b !! key) -> String.prefix (list_prefix w) key = true ->
  exists i, i < two64 /\ key = getObjectKey (w_prefix w) i.

(** X10: on a store whose keys under the prefix are all padded offset
    keys, [LastRecord] and [Recover] agree when their listings succeed:
    both set the cached length to the same [m]; either no key under the
    prefix is stored, [m = 0] and [LastRecord] fails with the empty-log
    error, or the key of [m] is stored and [LastRecord] returns [Read(m)]. *)
Theorem LastRecord_agrees_with_Recover (sha256 : list byte -> list byte)
    (w : S3WAL) (b : bucket) (net1 net2 : Net)
    (Hwf : well_formed w b)
    (Hl1 : pages_ok net1 0 (pages (list_keys b (list_prefix w))) = true)
    (Hl2 : pages_ok net2 0 (pages (list_keys b (list_prefix w))) = true) :
  exists m, Recover w b net2 = (Ok m, set_length w m, b) /\
    snd (fst (LastRecord sha256 w b net1)) = set_length w m /\
    ((forall key, String.prefix (list_prefix w) key = true -> b !! key = None) /\ m = 0 /\
     fst (fst (LastRecord sha256 w b net1)) = Error ErrEmpty \/
     is_Some (b !! getObjectKey (w_prefix w) m) /\
     fst (fst (LastRecord sha256 w b net1)) = Read sha256 (set_length w m) b net1 m).
Proof.
  rewrite Recover_eq, Hl2, LastRecord_eq, Hl1.
  eexists. split; [reflexivity|].
  set (L := list_keys b (list_prefix w)).
  destruct (last L) as [k|] eqn:El.
  - assert (Hk := El). apply last_Some_elem_of in Hk.
    apply elem_of_list_keys in Hk as Hk'. destruct Hk' as [Hb Hp].
    destruct (Hwf k Hb Hp) as (i & Hi & ->).
    rewrite getOffsetFromKey_getObjectKey by done.
    assert (Hmax : forall key o, key ∈ L -> getOffsetFromKey key = Some o -> o <= i).
    { intros key o Hin Ho. apply elem_of_list_keys in Hin as Hin'.
      destruct Hin' as [Hb' Hp']. destruct (Hwf key Hb' Hp') as (j & Hj & ->).
      rewrite getOffsetFromKey_getObjectKey in Ho by done. injection Ho as <-.
      destruct (StronglySorted_last String.le L _ _ (list_keys_sorted b _) El Hin)
        as [E|E].
      - apply (f_equal getOffsetFromKey) in E.
        rewrite !getOffsetFromKey_getObjectKey in E by done. injection E as ->. lia.
      - unfold String.le, String.leb in E. rewrite compare_getObjectKey in E by done.
        destruct (N.compare_spec j i); try done; lia. }
    assert (Hfold : fold_left recover_obj L 0 = i).
    { apply N.le_antisymm.
      - destruct (recover_fold_attained L 0) as [->|(key & Hin & Ho)]; [lia|].
        by apply (Hmax key).
      - eapply recover_fold_upper; [exact Hk|].
        by apply getOffsetFromKey_getObjectKey. }
    rewrite Hfold. split; [done|right; split; [exact Hb|done]].
  - apply last_None in El. rewrite El. split; [done|left].
    split; [|split; done].
    intros key Hp. destruct (b !! key) eqn:Ek; [|done]. exfalso.
    assert (Hin : key ∈ L) by (apply elem_of_list_keys; split; [by eexists|done]).
    rewrite El in Hin. by apply not_elem_of_nil in Hin.
Qed.

Lemma LastRecord_agrees_with_Recover_witness :
  let b := snd (append_all (NewS3WAL "wal") ∅ ["a"; "b"]) in
  (well_formed (NewS3WAL "wal") b /\
   pages_ok reliable 0 (pages (list_keys b (list_prefix (NewS3WAL "wal")))) = true) /\
  exists m, Recover (NewS3WAL "wal") b reliable = (Ok m, set_length (NewS3WAL "wal") m, b) /\
    snd (fst (LastRecord toy_hash (NewS3WAL "wal") b reliable)) = set_length (NewS3WAL "wal") m /\
    ((forall key, String.prefix (list_prefix (NewS3WAL "wal")) key = true -> b !! key = None) /\
     m = 0 /\
     fst (fst (LastRecord toy_hash (NewS3WAL "wal") b reliable)) = Error ErrEmpty \/
     is_Some (b !! getObjectKey (w_prefix (NewS3WAL "wal")) m) /\
     fst (fst (LastRecord toy_hash (NewS3WAL "wal") b reliable)) =
       Read toy_hash (set_length (NewS3WAL "wal") m) b reliable m).
Proof.
  intros b.
  assert (Hwf : well_formed (NewS3WAL "wal") b).
  { intros key Hb _.
    assert (Hd : key ∈ dom b) by (by apply elem_of_dom).
    assert (Hdom : dom b = {[getObjectKey "wal" 1; getObjectKey "wal" 2]})
      by (vm_compute; reflexivity).
    rewrite Hdom in Hd. apply elem_of_union in Hd as [Hd|Hd];
      apply elem_of_singleton in Hd as ->; eexists; (split; [|reflexivity]);
      vm_compute; reflexivity. }
  assert (Hok : pages_ok reliable 0 (pages (list_keys b (list_prefix (NewS3WAL "wal"))))
                = true) by (vm_compute; reflexivity).
  split; [by split|].
  exact (LastRecord_agrees_with_Recover toy_hash _ b reliable reliable Hwf Hok Hok).
Defined.

(** ** What [Truncate] deletes, also when it fails *)

(** [b] differs from [b0] only by deleted keys satisfying [Q] and not
    reported as per-key errors. *)
Definition deleted_only (net : Net) (Q : string -> Prop) (b0 b : bucket) : Prop :=
  forall key, b !! key = b0 !! key \/
    (b !! key = None /\ Q key /\ delete_rejects net key = false).

Lemma batchDelete_safe net j b keys r b' :
  batchDelete net j b keys = (r, b') -> deleted_only net (fun k => k ∈ keys) b b'.
Proof.
  unfold batchDelete, deleted_only.
  destruct keys as [|k0 keys0]; [intros H; injection H as _ <-; by left|].
  destruct (delete_fails net j); [intros H; injection H as _ <-; by left|].
  intros H. assert (Hb : b' = foldr delete b
      (filter (fun k => delete_rejects net k = false) (k0 :: keys0))).
  { by destruct (filter (fun k => delete_rejects net k = true) (k0 :: keys0));
      injection H as _ <-. }
  subst b'. intros key. rewrite lookup_foldr_delete.
  destruct (decide _) as [Hin|]; [right|by left].
  apply list_elem_of_filter in Hin as [Hr Hin]. done.
Qed.

Lemma deleted_only_trans net (Q : string -> Prop) (P : string -> Prop) b0 b1 b2 :
  deleted_only net Q b0 b1 -> deleted_only net P b1 b2 ->
  (forall k, P k -> Q k) -> deleted_only net Q b0 b2.
Proof.
  intros H1 H2 HPQ key.
  destruct (H2 key) as [E2|(E2 & HP & Hr)]; [rewrite E2; apply H1|].
  right. split; [done|split; [by apply HPQ|done]].
Qed.

Lemma truncate_objs_safe net after (Q : string -> Prop) objs b0 b pending j
    r b1 pend1 j1 :
  (forall k, k ∈ objs -> past after k = true -> Q k) ->
  (forall k, k ∈ pending -> Q k) ->
  deleted_only net Q b0 b ->
  truncate_objs net after objs b pending j = (r, b1, pend1, j1) ->
  deleted_only net Q b0 b1 /\ (forall k, k ∈ pend1 -> Q k).
Proof.
  revert b pending j.
  induction objs as [|k objs IH]; intros b pending j Hobjs Hpend Hb H.
  - cbn in H. by injection H as _ <- <- _.
  - cbn [truncate_objs] in H.
    assert (Hobjs' : forall k', k' ∈ objs -> past after k' = true -> Q k')
      by (intros; apply Hobjs; [by apply list_elem_of_further|done]).
    destruct (getOffsetFromKey k) as [o|] eqn:Ho; [|by eapply IH].
    set (pending1 := if after <? o then pending ++ [k] else pending) in H.
    assert (Hp1 : forall k', k' ∈ pending1 -> Q k').
    { unfold pending1. destruct (after <? o) eqn:Ea; [|done].
      intros k' Hk'. apply elem_of_app in Hk' as [Hk'|Hk']; [by apply Hpend|].
      apply list_elem_of_singleton in Hk' as ->.
      apply Hobjs; [apply list_elem_of_here|]. unfold past. by rewrite Ho. }
    destruct (Nat.eqb (length pending1) 1000).
    + destruct (batchDelete net j b pending1) as [[e|] bb] eqn:Hbd.
      * injection H as _ <- <- _. split; [|done].
        eapply deleted_only_trans; [exact Hb|by eapply batchDelete_safe|done].
      * eapply IH; [done| |eapply deleted_only_trans|exact H].
        -- intros k' Hk'. by apply not_elem_of_nil in Hk'.
        -- exact Hb.
        -- by eapply batchDelete_safe.
        -- done.
    + by eapply IH.
Qed.

Lemma truncate_pages_safe net after (Q : string -> Prop) i ps b0 b pending j
    r b1 pend1 j1 :
  (forall k, k ∈ concat ps -> past after k = true -> Q k) ->
  (forall k, k ∈ pending -> Q k) ->
  deleted_only net Q b0 b ->
  truncate_pages net after i ps b pending j = (r, b1, pend1, j1) ->
  deleted_only net Q b0 b1 /\ (forall k, k ∈ pend1 -> Q k).
Proof.
  revert i b pending j.
  induction ps as [|p ps IH]; intros i b pending j Hobjs Hpend Hb H.
  - cbn in H. by injection H as _ <- <- _.
  - cbn [truncate_pages] in H.
    destruct (list_fails net i); [by injection H as _ <- <- _|].
    destruct (truncate_objs net after p b pending j) as [[[r2 b2] pend2] j2] eqn:Ho.
    cbn [concat] in Hobjs.
    destruct (truncate_objs_safe net after Q p b0 b pending j r2 b2 pend2 j2)
      as [Hb2 Hp2]; [|done|done|done|].
    { intros k Hk. apply Hobjs. apply elem_of_app. by left. }
    destruct r2 as [e|]; [by injection H as _ <- <- _|].
    eapply IH; [|exact Hp2|exact Hb2|exact H].
    intros k Hk. apply Hobjs. apply elem_of_app. by right.
Qed.

Lemma Truncate_safe w b net k r w' b' :
  Truncate w b net k = (r, w', b') ->
  (forall e, r = Error e -> w' = w) /\
  deleted_only net
    (fun key => String.prefix (list_prefix w) key = true /\ past k key = true) b b'.
Proof.
  set (Q := fun key => String.prefix (list_prefix w) key = true /\ past k key = true).
  unfold Truncate.
  destruct (truncate_pages net k 0 (pages (list_keys b (list_prefix w))) b [] 0)
    as [[[r1 b1] pend] j] eqn:Ht.
  destruct (truncate_pages_safe net k Q 0 (pages (list_keys b (list_prefix w))) b b []
              0 r1 b1 pend j) as [Hb1 Hp]; [| |by left|exact Ht|].
  { intros key Hk Hp. rewrite pages_concat in Hk.
    apply elem_of_list_keys in Hk as [_ Hpre]. by split. }
  { intros key Hk. by apply not_elem_of_nil in Hk. }
  destruct r1 as [e|].
  - intros H. injection H as <- <- <-. split; [by intros|done].
  - destruct (Nat.ltb 0 (length pend)).
    + destruct (batchDelete net j b1 pend) as [[e|] b2] eqn:Hbd; intros H;
        injection H as <- <- <-.
      * split; [by intros|].
        eapply deleted_only_trans; [exact Hb1|by eapply batchDelete_safe|done].
      * split; [by intros|].
        eapply deleted_only_trans; [exact Hb1|by eapply batchDelete_safe|done].
    + intros H. injection H as <- <- <-. split; [by intros|done].
Qed.

(** X11: whatever the store calls do, [Truncate(k)] only ever removes
    objects under the prefix whose key decodes to an offset above [k] and
    that the delete call did not report as failed; every other object is
    left as it was.  When [Truncate] fails the cached length is
    unchanged, even if some objects were already deleted. *)
Theorem Truncate_deletes_only_past (w : S3WAL) (b : bucket) (net : Net) (k : N)
    (r : result unit) (w' : S3WAL) (b' : bucket)
    (H : Truncate w b net k = (r, w', b')) :
  (forall e, r = Error e -> w' = w) /\
  forall key, b' !! key = b !! key \/
    (b' !! key = None /\ String.prefix (list_prefix w) key = true /\
     past k key = true /\ delete_rejects net key = false).
Proof.
  apply Truncate_safe in H as [Hw Hb]. split; [done|].
  intros key. destruct (Hb key) as [E|(E & [Hp Hpast] & Hr)]; [by left|by right].
Qed.

Lemma Truncate_deletes_only_past_witness :
  let b := snd (append_all (NewS3WAL "wal") ∅ ["a"; "b"; "c"]) in
  let net := mkNet false false (fun _ => false) (fun _ => false)
               (fun key => String.eqb key (getObjectKey "wal" 3)) in
  let '(r, w', b') := Truncate (NewS3WAL "wal") b net 1 in
  r = Error (ErrDeleteKeys [getObjectKey "wal" 3]) /\
  ((forall e, r = Error e -> w' = NewS3WAL "wal") /\
   forall key, b' !! key = b !! key \/
     (b' !! key = None /\ String.prefix (list_prefix (NewS3WAL "wal")) key = true /\
      past 1 key = true /\ delete_rejects net key = false)).
Proof.
  intros b net.
  destruct (Truncate (NewS3WAL "wal") b net 1) as [[r w'] b'] eqn:E.
  assert (Hr : r = Error (ErrDeleteKeys [getObjectKey "wal" 3])).
  { assert (H := f_equal (fun t => fst (fst t)) E). vm_compute in H. by rewrite <- H. }
  split; [exact Hr|].
  exact (Truncate_deletes_only_past (NewS3WAL "wal") b net 1 r w' b' E).
Defined.

Lemma Truncate_keeps_rejected w b net k r w' b' key :
  Truncate w b net k = (r, w', b') -> delete_rejects net key = true ->
  b' !! key = b !! key.
Proof.
  intros H Hr. apply Truncate_safe in H as [_ Hb].
  destruct (Hb key) as [E|(_ & _ & Hr')]; [done|congruence].
Qed.

(** X12: an object that [Truncate(k)] should delete but that the
    [DeleteObjects] call reports as a per-key error stays in the store, and
    [Truncate] then returns an error (so the cached length is unchanged). *)
Theorem Truncate_rejected_key (w : S3WAL) (b : bucket) (net : Net) (k : N)
    (key : string) (r : result unit) (w' : S3WAL) (b' : bucket)
    (Hrej : delete_rejects net key = true) (Hb : is_Some (b !! key))
    (Hp : String.prefix (list_prefix w) key = true) (Hpast : past k key = true)
    (H : Truncate w b net k = (r, w', b')) :
  b' !! key = b !! key /\ (exists e, r = Error e) /\ w' = w.
Proof.
  pose proof (Truncate_keeps_rejected _ _ _ _ _ _ _ _ H Hrej) as Hk.
  split; [done|]. destruct r as [[]|e].
  - exfalso. apply Truncate_lookup in H as (_ & _ & Hl).
    rewrite Hl, Hp, Hpast in Hk. cbn in Hk. rewrite <- Hk in Hb. by destruct Hb.
  - split; [by exists e|]. apply Truncate_safe in H as [Hw _]. by apply (Hw e).
Qed.

Lemma Truncate_rejected_key_witness :
  let b := snd (append_all (NewS3WAL "wal") ∅ ["a"; "b"; "c"]) in
  let net := mkNet false false (fun _ => false) (fun _ => false)
               (fun key => String.eqb key (getObjectKey "wal" 3)) in
  let '(r, w', b') := Truncate (NewS3WAL "wal") b net 1 in
  (delete_rejects net (getObjectKey "wal" 3) = true /\
   is_Some (b !! getObjectKey "wal" 3) /\
   String.prefix (list_prefix (NewS3WAL "wal")) (getObjectKey "wal" 3) = true /\
   past 1 (getObjectKey "wal" 3) = true) /\
  (b' !! getObjectKey "wal" 3 = b !! getObjectKey "wal" 3 /\
   (exists e, r = Error e) /\ w' = NewS3WAL "wal").
Proof.
  intros b net.
  destruct (Truncate (NewS3WAL "wal") b net 1) as [[r w'] b'] eqn:E.
  assert (H1 : delete_rejects net (getObjectKey "wal" 3) = true) by (vm_compute; reflexivity).
  assert (H2 : is_Some (b !! getObjectKey "wal" 3)) by (vm_compute; eexists; reflexivity).
  assert (H3 : String.prefix (list_prefix (NewS3WAL "wal")) (getObjectKey "wal" 3) = true)
    by (vm_compute; reflexivity).
  assert (H4 : past 1 (getObjectKey "wal" 3) = true) by (vm_compute; reflexivity).
  split; [exact (conj H1 (conj H2 (conj H3 H4)))|].
  exact (Truncate_rejected_key (NewS3WAL "wal") b net 1 _ r w' b' H1 H2 H3 H4 E).
Defined.

Lemma truncate_objs_nothing net after objs b j :
  (forall k, k ∈ objs -> past after k = false) ->
  truncate_objs net after objs b [] j = (None, b, [], j).
Proof.
  induction objs as [|k objs IH]; intros Hobjs; [done|].
  cbn [truncate_objs].
  assert (Hobjs' : forall k', k' ∈ objs -> past after k' = false)
    by (intros; apply Hobjs; by apply list_elem_of_further).
  destruct (getOffsetFromKey k) as [o|] eqn:Ho; [|by apply IH].
  assert (Hk : past after k = false) by (apply Hobjs, list_elem_of_here).
  unfold past in Hk. rewrite Ho in Hk. rewrite Hk. cbn. by apply IH.
Qed.

Lemma truncate_pages_nothing net after i ps b j :
  pages_ok net i ps = true ->
  (forall k, k ∈ concat ps -> past after k = false) ->
  truncate_pages net after i ps b [] j = (None, b, [], j).
Proof.
  revert i. induction ps as [|p ps IH]; intros i Hok Hobjs; [done|].
  rewrite pages_ok_cons in Hok. apply andb_prop in Hok as [Hi Hok].
  cbn [truncate_pages]. destruct (list_fails net i); [discriminate|].
  cbn [concat] in Hobjs.
  rewrite truncate_objs_nothing.
  - apply IH; [done|]. intros k Hk. apply Hobjs, elem_of_app. by right.
  - intros k Hk. apply Hobjs, elem_of_app. by left.
Qed.

Lemma Truncate_nothing w b net k :
  pages_ok net 0 (pages (list_keys b (list_prefix w))) = true ->
  (forall key, is_Some (b !! key) -> String.prefix (list_prefix w) key = true ->
     past k key = false) ->
  Truncate w b net k = (Ok tt, set_length w k, b).
Proof.
  intros Hok Hnone. unfold Truncate.
  rewrite truncate_pages_nothing; [|done|].
  - cbn. f_equal. f_equal. f_equal. by destruct (N.eqb_spec k 0).
  - intros key Hk. rewrite pages_concat in Hk.
    apply elem_of_list_keys in Hk as [Hb Hp]. by apply Hnone.
Qed.

(** X13: when no stored key under the prefix decodes to an offset above
    [k], [Truncate(k)] makes no [DeleteObjects] call: it succeeds whenever
    its listing succeeds, however the delete calls would fail, leaves the
    store unchanged and sets the cached length to [k]. *)
Theorem Truncate_nothing_to_delete (w : S3WAL) (b : bucket) (net : Net) (k : N)
    (Hok : pages_ok net 0 (pages (list_keys b (list_prefix w))) = true)
    (Hnone : forall key, is_Some (b !! key) -> String.prefix (list_prefix w) key = true ->
       past k key = false) :
  Truncate w b net k = (Ok tt, set_length w k, b).
Proof. by apply Truncate_nothing. Qed.

Lemma Truncate_nothing_to_delete_witness :
  let b := snd (append_all (NewS3WAL "wal") ∅ ["a"; "b"]) in
  let net := mkNet false false (fun _ => false) (fun _ => true) (fun _ => true) in
  (pages_ok net 0 (pages (list_keys b (list_prefix (NewS3WAL "wal")))) = true /\
   (forall key, is_Some (b !! key) ->
      String.prefix (list_prefix (NewS3WAL "wal")) key = true -> past 2 key = false)) /\
  Truncate (NewS3WAL "wal") b net 2 = (Ok tt, set_length (NewS3WAL "wal") 2, b).
Proof.
  intros b net.
  assert (Hok : pages_ok net 0 (pages (list_keys b (list_prefix (NewS3WAL "wal")))) = true)
    by (vm_compute; reflexivity).
  assert (Hn : forall key, is_Some (b !! key) ->
      String.prefix (list_prefix (NewS3WAL "wal")) key = true -> past 2 key = false).
  { intros key Hb _.
    assert (Hd : key ∈ dom b) by (by apply elem_of_dom).
    assert (Hdom : dom b = {[getObjectKey "wal" 1; getObjectKey "wal" 2]})
      by (vm_compute; reflexivity).
    rewrite Hdom in Hd. apply elem_of_union in Hd as [Hd|Hd];
      apply elem_of_singleton in Hd as ->; vm_compute; reflexivity. }
  split; [exact (conj Hok Hn)|].
  exact (Truncate_nothing_to_delete (NewS3WAL "wal") b net 2 Hok Hn).
Defined.

(** X14: [Truncate] is idempotent: after a successful [Truncate(k)], a
    second [Truncate(k)] whose listing succeeds returns success, deletes
    nothing and leaves the handle as it is, whatever its delete calls
    would do. *)
Theorem Truncate_idempotent (w : S3WAL) (b : bucket) (net net' : Net) (k : N)
    (w' : S3WAL) (b' : bucket)
    (H : Truncate w b net k = (Ok tt, w', b'))
    (Hok : pages_ok net' 0 (pages (list_keys b' (list_prefix w'))) = true) :
  Truncate w' b' net' k = (Ok tt, w', b').
Proof.
  apply Truncate_lookup in H as H'. destruct H' as (Hlen & Hpre & Hl).
  rewrite Truncate_nothing; [|done|].
  - f_equal. f_equal. destruct w' as [p' l']. cbn in *. by subst.
  - intros key Hb Hp. rewrite (list_prefix_same_prefix w' w Hpre) in Hp.
    rewrite Hl, Hp in Hb. cbn in Hb.
    destruct (past k key); [by destruct Hb|done].
Qed.

Lemma Truncate_idempotent_witness :
  let b := snd (append_all (NewS3WAL "wal") ∅ ["a"; "b"; "c"]) in
  let '(r, w', b') := Truncate (NewS3WAL "wal") b reliable 1 in
  r = Ok tt /\
  (pages_ok reliable 0 (pages (list_keys b' (list_prefix w'))) = true /\
   Truncate w' b' reliable 1 = (Ok tt, w', b')).
Proof.
  intros b.
  destruct (Truncate (NewS3WAL "wal") b reliable 1) as [[r w'] b'] eqn:E.
  assert (Hr : r = Ok tt).
  { assert (H := f_equal (fun t => fst (fst t)) E). vm_compute in H. by rewrite <- H. }
  subst r.
  assert (Hok : pages_ok reliable 0 (pages (list_keys b' (list_prefix w'))) = true).
  { assert (Hw : w' = snd (fst (Truncate (NewS3WAL "wal") b reliable 1)))
      by (rewrite E; reflexivity).
    assert (Hb : b' = snd (Truncate (NewS3WAL "wal") b reliable 1))
      by (rewrite E; reflexivity).
    rewrite Hw, Hb. vm_compute. reflexivity. }
  split; [reflexivity|split; [exact Hok|]].
  exact (Truncate_idempotent (NewS3WAL "wal") b reliable reliable 1 w' b' E Hok).
Defined.

(** ** The command-line tool *)

Lemma cli_append_eq sha256 (sha256_size : forall l, length (sha256 l) = 32%nat)
    p s rest b net :
  put_fails net = false ->
  cli_main sha256 false p ("append" :: s :: rest) b net =
  (PrintAppended 1 (str_bytes s),
   <[getObjectKey (w_prefix (NewS3WAL p)) 1 :=
       (put_uint64 1 ++ str_bytes s) ++ sha256 (put_uint64 1 ++ str_bytes s)]> b).
Proof.
  intros Hput. unfold cli_main. cbn [String.eqb Ascii.eqb Bool.eqb andb].
  unfold Append. change (add64 (w_length (NewS3WAL p)) 1) with 1.
  rewrite prepareBody_eq by done. by rewrite Hput.
Qed.

(** X15: every run of the tool builds a fresh handle (cached length 0)
    and never calls [Recover], so [s3wal append s] always writes offset 1:
    when the put succeeds it prints offset 1 and stores the frame of
    [(1, s)] at the key of offset 1, replacing whatever object was there;
    every other key is unchanged. *)
Theorem cli_append_offset_one (sha256 : list byte -> list byte)
    (sha256_size : forall l, length (sha256 l) = 32%nat)
    (p s : string) (rest : list string) (b : bucket) (net : Net)
    (Hput : put_fails net = false) :
  cli_main sha256 false p ("append" :: s :: rest) b net =
  (PrintAppended 1 (str_bytes s),
   <[getObjectKey (w_prefix (NewS3WAL p)) 1 :=
       (put_uint64 1 ++ str_bytes s) ++ sha256 (put_uint64 1 ++ str_bytes s)]> b).
Proof. by apply cli_append_eq. Qed.

Lemma cli_append_offset_one_witness :
  put_fails reliable = false /\
  cli_main toy_hash false "wal" ["append"; "x"] (snd (append_all (NewS3WAL "wal") ∅ ["a"; "b"])) reliable =
  (PrintAppended 1 (str_bytes "x"),
   <[getObjectKey (w_prefix (NewS3WAL "wal")) 1 :=
       (put_uint64 1 ++ str_bytes "x") ++ toy_hash (put_uint64 1 ++ str_bytes "x")]>
     (snd (append_all (NewS3WAL "wal") ∅ ["a"; "b"]))).
Proof.
  split; [reflexivity|].
  exact (cli_append_offset_one toy_hash (fun l => eq_refl) "wal" "x" []
           (snd (append_all (NewS3WAL "wal") ∅ ["a"; "b"])) reliable eq_refl).
Defined.

(** X16: two runs [s3wal append s1] and [s3wal append s2] both report
    offset 1, and a following [s3wal read 1] prints the record [(1, s2)]:
    the first record is lost. *)
Theorem cli_second_append_overwrites (sha256 : list byte -> list byte)
    (sha256_size : forall l, length (sha256 l) = 32%nat)
    (p s1 s2 : string) (b : bucket) (net1 net2 net3 : Net)
    (Hput1 : put_fails net1 = false) (Hput2 : put_fails net2 = false)
    (Hget3 : get_fails net3 = false) :
  let '(out1, b1) := cli_main sha256 false p ["append"; s1] b net1 in
  let '(out2, b2) := cli_main sha256 false p ["append"; s2] b1 net2 in
  out1 = PrintAppended 1 (str_bytes s1) /\ out2 = PrintAppended 1 (str_bytes s2) /\
  cli_main sha256 false p ["read"; "1"] b2 net3 =
    (PrintRecord (mkRecord 1 (str_bytes s2)), b2).
Proof.
  rewrite cli_append_eq by done. rewrite cli_append_eq by done.
  split; [done|split; [done|]].
  unfold cli_main. cbn [String.eqb Ascii.eqb Bool.eqb andb].
  change (ParseUint (list_ascii_of_string "1")) with (Some 1).
  unfold Read. rewrite Hget3. rewrite lookup_insert_eq.
  rewrite decode_body_frame by (done || (vm_compute; reflexivity)). done.
Qed.

Lemma cli_second_append_overwrites_witness :
  (put_fails reliable = false /\ put_fails reliable = false /\ get_fails reliable = false) /\
  let '(out1, b1) := cli_main toy_hash false "wal" ["append"; "first"] ∅ reliable in
  let '(out2, b2) := cli_main toy_hash false "wal" ["append"; "second"] b1 reliable in
  out1 = PrintAppended 1 (str_bytes "first") /\ out2 = PrintAppended 1 (str_bytes "second") /\
  cli_main toy_hash false "wal" ["read"; "1"] b2 reliable =
    (PrintRecord (mkRecord 1 (str_bytes "second")), b2).
Proof.
  split; [split; [reflexivity|split; reflexivity]|].
  exact (cli_second_append_overwrites toy_hash (fun l => eq_refl) "wal" "first" "second" ∅
           reliable reliable reliable eq_refl eq_refl eq_refl).
Defined.

(** X17: a successful [Append] is never lost to a later [Recover]: when
    [Append] returns [o], a [Recover] on the resulting store whose listing
    succeeds returns at least [o]. *)
Theorem Append_then_Recover (sha256 : list byte -> list byte)
    (w : S3WAL) (b : bucket) (net net' : Net) (data : list byte)
    (o : N) (w1 : S3WAL) (b1 : bucket)
    (Happ : Append sha256 w b net data = (Ok o, w1, b1))
    (Hok : pages_ok net' 0 (pages (list_keys b1 (list_prefix w1))) = true) :
  exists m, Recover w1 b1 net' = (Ok m, set_length w1 m, b1) /\ o <= m.
Proof.
  rewrite Recover_eq, Hok. eexists. split; [reflexivity|].
  unfold Append in Happ. destruct (prepareBody sha256 _ data); [|discriminate].
  destruct (put_fails net); [discriminate|]. injection Happ as <- <- <-.
  eapply recover_fold_upper.
  - apply elem_of_list_keys. rewrite lookup_insert_eq. split; [by eexists|].
    apply (prefix_getObjectKey (set_length w (add64 (w_length w) 1))).
  - apply getOffsetFromKey_getObjectKey. unfold add64. apply N.mod_lt. unfold two64. lia.
Qed.

Lemma Append_then_Recover_witness :
  let b := snd (append_all (NewS3WAL "wal") ∅ ["a"; "b"]) in
  let w := set_length (NewS3WAL "wal") 2 in
  let '(r, w1, b1) := Append toy_hash w b reliable [x05] in
  r = Ok 3 /\
  (pages_ok reliable 0 (pages (list_keys b1 (list_prefix w1))) = true /\
   exists m, Recover w1 b1 reliable = (Ok m, set_length w1 m, b1) /\ 3 <= m).
Proof.
  intros b w.
  destruct (Append toy_hash w b reliable [x05]) as [[r w1] b1] eqn:E.
  assert (Hr : r = Ok 3).
  { assert (H := f_equal (fun t => fst (fst t)) E). vm_compute in H. by rewrite <- H. }
  subst r.
  assert (Hok : pages_ok reliable 0 (pages (list_keys b1 (list_prefix w1))) = true).
  { assert (Hw : w1 = snd (fst (Append toy_hash w b reliable [x05])))
      by (rewrite E; reflexivity).
    assert (Hb : b1 = snd (Append toy_hash w b reliable [x05]))
      by (rewrite E; reflexivity).
    rewrite Hw, Hb. vm_compute. reflexivity. }
  split; [reflexivity|split; [exact Hok|]].
  exact (Append_then_Recover toy_hash w b reliable reliable [x05] 3 w1 b1 E Hok).
Defined.
